(** * Diffusion beta schedules: a shallow embedding of [diffusionUtils]

    The engine under study is the numeric core of the repository:
    [linspace], [getBetas], [calculateSchedule] and [solveBetaEndForSNR].

    Numbers.  A JavaScript [number] is modelled by a real number of the
    Standard Library ([R]): arithmetic is exact.  Rounding, overflow, [NaN]
    and the infinities are outside this model; every statement below is a
    statement about the code run in exact arithmetic on finite numbers.
    On finite inputs the divisions of the engine never have a zero
    denominator and its logarithms always have a positive argument (that
    is what the [|| 1e-12] and [Math.max] guards are for), so [/] and [ln]
    are only used where they mean what the source means.  The one operation
    that can leave the finite numbers is [Math.sqrt] of a negative number
    ([NaN] in the source, [0] for [sqrt] on [R]); the statements that depend
    on the value of such a square root carry the hypothesis that excludes
    it.  Where rounding, overflow or [NaN] decide what the code does, the
    run is repeated on primitive binary64 floats (module [Binary64]); the
    statements that hold of the real numbers only say so.

    Exceptions.  The only operations of the engine that can throw on finite
    numbers are the creation of an array of a requested length
    ([Array.from({length: count}, ...)] and [Array(n)], a [RangeError] above
    [2^32 - 1] elements) and the property access on [data[data.length - 1]]
    (a [TypeError] on an empty array).  Both are written out, in a small
    exception monad. *)

From Stdlib Require Import Reals Lra Lia ZArith List Sorted.
From Stdlib Require String Ascii.
From Stdlib Require PrimFloat Uint63.
Import ListNotations.

Open Scope R_scope.

(** ** Completions: a value or a thrown exception *)

Inductive Exception : Type :=
| RangeError
| TypeError.

Inductive Completion (A : Type) : Type :=
| Return (a : A)
| Throw (e : Exception).

Arguments Return {A} a.
Arguments Throw {A} e.

Definition bind {A B : Type} (c : Completion A) (k : A -> Completion B)
  : Completion B :=
  match c with
  | Return a => k a
  | Throw e => Throw e
  end.

Notation "x <- c ;; k" := (bind c (fun x => k))
  (at level 61, c at next level, right associativity).

Definition fmap {A B : Type} (f : A -> B) (c : Completion A) : Completion B :=
  x <- c ;; Return (f x).

(** ** The fragment of the JavaScript library the engine calls *)

Module JS.

(** [Math.floor]; its result is a number, here an integer-valued real. *)
Definition Math_floor (x : R) : R := IZR (Zfloor x).

Definition Math_max (x y : R) : R := Rmax x y.

Definition Math_sqrt (x : R) : R := sqrt x.

Definition Math_log2 (x : R) : R := ln x / ln 2.

Definition Math_log10 (x : R) : R := ln x / ln 10.

(** [Math.pow(x, y)]; the engine only calls it with the base [2]. *)
Definition Math_pow (x y : R) : R := Rpower x y.

(** [x || d] on numbers: [d] exactly when [x] is zero. *)
Definition or_else (x d : R) : R := if Req_dec_T x 0 then d else x.

(** [ToIntegerOrInfinity]: truncation towards zero. *)
Definition ToIntegerOrInfinity (x : R) : Z :=
  if Rlt_dec x 0 then Zceil x else Zfloor x.

(** [ToLength]: the truncation clamped to [0 .. 2^53 - 1]. *)
Definition ToLength (x : R) : Z :=
  Z.min (Z.max (ToIntegerOrInfinity x) 0) (2 ^ 53 - 1).

Definition max_array_length : Z := 2 ^ 32 - 1.

(** [new Array(len)] for an integer [len]: a [RangeError] when [len] is
    not an array length. *)
Definition ArrayCreate (len : Z) : Completion nat :=
  if ((0 <=? len)%Z && (len <=? max_array_length)%Z)%bool
  then Return (Z.to_nat len)
  else Throw RangeError.

(** [Array.from({ length: n }, (_, i) => f(i))]. *)
Definition Array_from {A : Type} (n : R) (f : nat -> A)
  : Completion (list A) :=
  len <- ArrayCreate (ToLength n) ;;
  Return (map f (seq 0 len)).

(** [Array(n).fill(v)]: [Array(n)] with one numeric argument throws a
    [RangeError] unless [n] is an integer in [0 .. 2^32 - 1]. *)
Definition Array_fill {A : Type} (n : R) (v : A) : Completion (list A) :=
  if Req_dec_T n (IZR (Zfloor n))
  then len <- ArrayCreate (Zfloor n) ;; Return (repeat v len)
  else Throw RangeError.

End JS.

Import JS.

(** ** types.ts *)

Inductive ScheduleType : Type :=
| LINEAR | QUAD | SQRT | CONST | RECIP | LOG | EXP.

Record DiffusionParams : Type := mkParams {
  betaStart : R;
  betaEnd : R;
  numTimesteps : R;
  schedule : ScheduleType
}.

Record TimestepData : Type := mkTimestepData {
  t : Z;
  beta : R;
  alpha : R;
  alphaBar : R;
  oneMinusAlphaBar : R;
  sqrtAlphaBar : R;
  sqrtOneMinusAlphaBar : R;
  snr : R;
  snrDb : R
}.

(** ** linspace *)

Definition linspace (start end_ n : R) : Completion (list R) :=
  let count := Math_max 1 (Math_floor n) in
  if Rlt_dec count 2 then Return [start]
  else
    let step := (end_ - start) / (count - 1) in
    Array_from count (fun i => start + step * INR i).

(** ** getBetas

    [ScheduleType] is a closed enumeration: the [default] arm of the
    [switch], a copy of the [LINEAR] arm, is reached by no value of it. *)

Definition getBetas (params : DiffusionParams) : Completion (list R) :=
  let betaStart := betaStart params in
  let betaEnd := betaEnd params in
  let n := Math_max 1 (Math_floor (numTimesteps params)) in
  match schedule params with
  | LINEAR => linspace betaStart betaEnd n
  | QUAD =>
      fmap (map (fun v => v * v))
           (linspace (Math_sqrt betaStart) (Math_sqrt betaEnd) n)
  | SQRT =>
      fmap (map (fun v => Math_sqrt v))
           (linspace (betaStart ^ 2) (betaEnd ^ 2) n)
  | CONST => Array_fill n betaEnd
  | RECIP =>
      fmap (map (fun v => betaEnd * (1 / v))) (linspace n 1 n)
  | LOG =>
      let logStart := Math_log2 (Math_max 1e-10 betaStart) in
      let logEnd := Math_log2 (Math_max 1e-10 betaEnd) in
      fmap (map (fun v => Math_pow 2 v)) (linspace logStart logEnd n)
  | EXP =>
      let expStart := Math_pow 2 betaStart in
      let expEnd := Math_pow 2 betaEnd in
      fmap (map (fun v => Math_log2 v)) (linspace expStart expEnd n)
  end.

(** ** calculateSchedule *)

(** One turn of the [for] loop: the record pushed for [beta] at index [i],
    given the accumulator [currentAlphaBar] as already multiplied. *)
Definition record_at (i : nat) (beta currentAlphaBar : R) : TimestepData :=
  let t := (Z.of_nat i + 1)%Z in
  let alpha := 1 - beta in
  let oneMinusAlphaBar := 1 - currentAlphaBar in
  let snr := currentAlphaBar / or_else oneMinusAlphaBar 1e-12 in
  let snrDb := 10 * Math_log10 (Math_max 1e-20 snr) in
  {| t := t;
     beta := beta;
     alpha := alpha;
     alphaBar := currentAlphaBar;
     oneMinusAlphaBar := oneMinusAlphaBar;
     sqrtAlphaBar := Math_sqrt currentAlphaBar;
     sqrtOneMinusAlphaBar := Math_sqrt oneMinusAlphaBar;
     snr := snr;
     snrDb := snrDb |}.

(** The loop from index [i] on: [betas] is what is left of the array from
    [i], [currentAlphaBar] and [results] are the two mutable variables. *)
Fixpoint schedule_loop (betas : list R) (i : nat) (currentAlphaBar : R)
  (results : list TimestepData) : list TimestepData :=
  match betas with
  | [] => results
  | beta :: rest =>
      let alpha := 1 - beta in
      let currentAlphaBar := currentAlphaBar * alpha in
      schedule_loop rest (S i) currentAlphaBar
        (results ++ [record_at i beta currentAlphaBar])
  end.

(** The Schedule Evaluator proper: the body of [calculateSchedule] after
    the call of [getBetas]. *)
Definition evaluate (betas : list R) : list TimestepData :=
  schedule_loop betas 0 1 [].

Definition calculateSchedule (params : DiffusionParams)
  : Completion (list TimestepData) :=
  betas <- getBetas params ;;
  Return (evaluate betas).

(** ** solveBetaEndForSNR *)

(** [data[data.length - 1].snrDb]: a [TypeError] on the empty array. *)
Definition final_snrDb (data : list TimestepData) : Completion R :=
  match last (map Some data) None with
  | Some r => Return (snrDb r)
  | None => Throw TypeError
  end.

(** The [for] loop with [iters] turns left. *)
Fixpoint bisect (targetSnrDb betaStart numTimesteps : R)
  (schedule : ScheduleType) (iters : nat) (low high : R) : Completion R :=
  match iters with
  | O => Return high
  | S iters' =>
      let mid := (low + high) / 2 in
      data <- calculateSchedule
                (mkParams betaStart mid numTimesteps schedule) ;;
      finalSnrDb <- final_snrDb data ;;
      if Rgt_dec finalSnrDb targetSnrDb
      then bisect targetSnrDb betaStart numTimesteps schedule iters' mid high
      else bisect targetSnrDb betaStart numTimesteps schedule iters' low mid
  end.

Definition solveBetaEndForSNR (targetSnrDb betaStart numTimesteps : R)
  (schedule : ScheduleType) : Completion R :=
  bisect targetSnrDb betaStart numTimesteps schedule 40 0.0000001 0.999.

(** ** downloadCSV: the text of the file

    [downloadCSV] builds the text [csvContent] and hands it to the browser
    (a [Blob], an object URL, a temporary link that is clicked); only the
    text is modelled.  [Array.prototype.join] turns each number into text
    with the language's number-to-string conversion, which is a parameter
    of the model ([Number_toString]). *)

Module CSV.

Import String Ascii.
Local Open Scope string_scope.

Definition comma : ascii := ","%char.

Definition line_feed : ascii := "010"%char.

(** [a.join(sep)] for a one-character separator. *)
Definition join (sep : ascii) (a : list string) : string :=
  concat (String sep EmptyString) a.

Definition headers : list string :=
  ["t"; "beta"; "alpha"; "alpha_bar"; "1-alpha_bar";
   "sqrt(alpha_bar)"; "sqrt(1-alpha_bar)"; "SNR"; "SNR(dB)"].

(** [d => [d.t, d.beta, ..., d.snrDb]]. *)
Definition row (d : TimestepData) : list R :=
  [IZR (t d); beta d; alpha d; alphaBar d; oneMinusAlphaBar d;
   sqrtAlphaBar d; sqrtOneMinusAlphaBar d; snr d; snrDb d].

Definition csvContent (Number_toString : R -> string)
  (data : list TimestepData) : string :=
  let rows := map row data in
  join line_feed
    (join comma headers
       :: map (fun r => join comma (map Number_toString r)) rows).

End CSV.

(** ** App.tsx: what the charts and the hover read from a schedule *)

(** [Math.ceil] and [Math.abs]. *)
Definition Math_ceil (x : R) : R := IZR (Zceil x).

Definition Math_abs (x : R) : R := Rabs x.

(** [a.filter((_, i) => keep(i))], the index counted from [i]. *)
Fixpoint filter_from {A : Type} (keep : nat -> bool) (i : nat) (a : list A)
  : list A :=
  match a with
  | [] => []
  | x :: rest =>
      if keep i then x :: filter_from keep (S i) rest
      else filter_from keep (S i) rest
  end.

(** [i % step === 0] for an array index [i] and an integer-valued [step]:
    on such operands [%] is the remainder of the truncated division. *)
Definition on_step (step : R) (i : nat) : bool :=
  (Z.rem (Z.of_nat i) (Zfloor step) =? 0)%Z.

(** The thinning the charts apply before plotting, for a cap of [cap]
    points:
    [step = Math.max(1, Math.ceil(data.length / cap))], then
    [data.filter((_, i) => i % step === 0)]. *)
Definition thin {A : Type} (cap : R) (data : list A) : list A :=
  let step := Math_max 1 (Math_ceil (INR (length data) / cap)) in
  filter_from (on_step step) 0 data.

(** [comparativeScatterData]: at most 250 points per schedule. *)
Definition comparativeScatterPoints (data : list TimestepData)
  : list TimestepData :=
  thin 250 data.

(** [ChartCard]'s [chartPoints]: the empty array is returned as it is,
    otherwise at most 150 points. *)
Definition chartPoints (data : list TimestepData) : list TimestepData :=
  match data with
  | [] => []
  | _ :: _ => thin 150 data
  end.

(** The hover handler's [res.data[t - 1] || res.data.find(d => d.t === t)]
    for the rounded step [t] under the pointer. *)
Definition hover_point (data : list TimestepData) (step : Z)
  : option TimestepData :=
  match (if (1 <=? step)%Z then nth_error data (Z.to_nat (step - 1))
         else None) with
  | Some point => Some point
  | None => find (fun d => (t d =? step)%Z) data
  end.

(** [yPrecision]: the number of decimals of the beta axis. *)
Definition yPrecision (betaStart : R) : R :=
  let mag := Math_floor (Math_log10 betaStart) in
  Math_max 2 (Math_abs mag + 1).

(** ** The same arithmetic on IEEE doubles

    The [+], [-], [*], [/], [Math.sqrt] and comparisons of the source are
    the operations of the primitive floats (binary64, round to nearest
    even).  The parts of the engine that use nothing else are written out
    on them a second time, to run the code as the browser runs it where
    rounding, overflow or [NaN] decide: [linspace], the LINEAR, QUAD, CONST
    and RECIP arms of [getBetas], and the loop of [calculateSchedule] up to
    the argument of [Math.log10].  [Math.log10] itself has no primitive
    counterpart: what it returns on a number is a parameter ([approx]); on
    [NaN] it returns [NaN].  The step count is given as an integer, so
    [Math.floor] is not needed. *)

Module Binary64.

Import PrimFloat.
Local Open Scope float_scope.
#[local] Set Warnings "-inexact-float".

(** An array index or an integer count as a number. *)
Definition of_nat (i : nat) : float := of_uint63 (Uint63.of_Z (Z.of_nat i)).

(** [Math.max(x, y)]: [NaN] as soon as one argument is [NaN]; of the two
    zeros, [+0] is the larger (their sum). *)
Definition Math_max (x y : float) : float :=
  if (is_nan x || is_nan y)%bool then nan
  else if ltb x y then y
  else if (eqb x 0 && eqb y 0)%bool then x + y
  else x.

(** [x || d]: [d] when [x] is [0], [-0] or [NaN]. *)
Definition or_else (x d : float) : float :=
  if (is_nan x || eqb x 0)%bool then d else x.

Definition Math_log10 (approx : float -> float) (x : float) : float :=
  if is_nan x then nan else approx x.

Definition linspace (start end_ : float) (count : nat) : list float :=
  if (count <? 2)%nat then [start]
  else
    let step := (end_ - start) / (of_nat count - 1) in
    map (fun i => start + step * of_nat i) (seq 0 count).

Definition betas_LINEAR (betaStart betaEnd : float) (n : nat) : list float :=
  linspace betaStart betaEnd n.

Definition betas_QUAD (betaStart betaEnd : float) (n : nat) : list float :=
  map (fun v => v * v) (linspace (sqrt betaStart) (sqrt betaEnd) n).

Definition betas_CONST (betaEnd : float) (n : nat) : list float :=
  repeat betaEnd n.

Definition betas_RECIP (betaEnd : float) (n : nat) : list float :=
  map (fun v => betaEnd * (1 / v)) (linspace (of_nat n) 1 n).

(** A record, with the argument [Math.max(1e-20, snr)] of the logarithm in
    the place of [snrDb]. *)
Record Row : Type := mkRow {
  t : Z;
  beta : float;
  alpha : float;
  alphaBar : float;
  oneMinusAlphaBar : float;
  sqrtAlphaBar : float;
  sqrtOneMinusAlphaBar : float;
  snr : float;
  log10_argument : float
}.

(** [snrDb = 10 * Math.log10(Math.max(1e-20, snr))]. *)
Definition snrDb (approx : float -> float) (r : Row) : float :=
  10 * Math_log10 approx (log10_argument r).

Fixpoint schedule_loop (betas : list float) (i : nat)
  (currentAlphaBar : float) (results : list Row) : list Row :=
  match betas with
  | [] => results
  | beta :: rest =>
      let alpha := 1 - beta in
      let currentAlphaBar := currentAlphaBar * alpha in
      let oneMinusAlphaBar := 1 - currentAlphaBar in
      let snr := currentAlphaBar / or_else oneMinusAlphaBar 1e-12 in
      schedule_loop rest (S i) currentAlphaBar
        (results
           ++ [mkRow (Z.of_nat i + 1) beta alpha currentAlphaBar
                 oneMinusAlphaBar (sqrt currentAlphaBar)
                 (sqrt oneMinusAlphaBar) snr (Math_max 1e-20 snr)])
  end.

Definition evaluate (betas : list float) : list Row :=
  schedule_loop betas 0 1 [].

End Binary64.

(** * Specification vocabulary

    The closed forms and predicates the statements below are written with. *)

(** The number of steps the spec calls [max(1, floor(numTimesteps))], as an
    integer. *)
Definition steps (numTimesteps : R) : Z := Z.max 1 (Zfloor numTimesteps).

(** The values [linspace] returns for an effective count [k]. *)
Definition linspace_values (start end_ : R) (k : Z) : list R :=
  if (k <? 2)%Z then [start]
  else map (fun i => start + (end_ - start) / (IZR k - 1) * INR i)
           (seq 0 (Z.to_nat k)).

(** The records the loop pushes from index [i] on, in the order pushed. *)
Fixpoint records_from (betas : list R) (i : nat) (currentAlphaBar : R)
  : list TimestepData :=
  match betas with
  | [] => []
  | beta :: rest =>
      record_at i beta (currentAlphaBar * (1 - beta))
        :: records_from rest (S i) (currentAlphaBar * (1 - beta))
  end.

(** The left-to-right product of the [alpha]s of steps [1 .. i + 1], from
    the seed [seed]. *)
Definition cumulative_alpha (seed : R) (betas : list R) (i : nat) : R :=
  fold_left Rmult (map (fun b => 1 - b) (firstn (S i) betas)) seed.

(** What every record satisfies, whatever the sequence: the fields derived
    from [beta] and [alphaBar]. *)
Definition derived_fields (r : TimestepData) : Prop :=
  alpha r = 1 - beta r /\
  oneMinusAlphaBar r = 1 - alphaBar r /\
  sqrtAlphaBar r = sqrt (alphaBar r) /\
  sqrtOneMinusAlphaBar r = sqrt (oneMinusAlphaBar r).

(** The two guarded fields: the denominator of [snr] is replaced exactly at
    zero, the argument of the logarithm is clamped from below. *)
Definition snr_fields (r : TimestepData) : Prop :=
  snr r = alphaBar r
          / (if Req_dec_T (oneMinusAlphaBar r) 0 then 1e-12
             else oneMinusAlphaBar r) /\
  snrDb r = 10 * (ln (Rmax 1e-20 (snr r)) / ln 10).

(** The betas [getBetas] returns for parameters whose step count is an
    array length. *)
Definition betas_values (params : DiffusionParams) : list R :=
  let k := steps (numTimesteps params) in
  let bs := betaStart params in
  let be := betaEnd params in
  match schedule params with
  | LINEAR => linspace_values bs be k
  | QUAD => map (fun v => v * v) (linspace_values (sqrt bs) (sqrt be) k)
  | SQRT => map sqrt (linspace_values (bs ^ 2) (be ^ 2) k)
  | CONST => repeat be (Z.to_nat k)
  | RECIP => map (fun v => be * (1 / v)) (linspace_values (IZR k) 1 k)
  | LOG =>
      map (fun v => Rpower 2 v)
          (linspace_values (ln (Rmax 1e-10 bs) / ln 2)
                           (ln (Rmax 1e-10 be) / ln 2) k)
  | EXP =>
      map (fun v => ln v / ln 2)
          (linspace_values (Rpower 2 bs) (Rpower 2 be) k)
  end.

(** [snrDb] as a function of [snr]. *)
Definition decibels (snr : R) : R := 10 * Math_log10 (Math_max 1e-20 snr).

(** The product of all the [alpha]s of a beta sequence, from a seed. *)
Definition alpha_product (seed : R) (betas : list R) : R :=
  fold_left Rmult (map (fun b => 1 - b) betas) seed.

(** [snr] as a function of [alphaBar]. *)
Definition snr_of (alphaBar : R) : R :=
  alphaBar / or_else (1 - alphaBar) 1e-12.

(** The [snrDb] of the last record of the schedule evaluated on [betas]. *)
Definition terminal_snrDb (betas : list R) : R :=
  decibels (snr_of (alpha_product 1 betas)).

(** The terminal [snrDb] as a function of [betaEnd], the other parameters
    fixed: the function the solver bisects. *)
Definition terminal_of (betaStart numTimesteps : R) (schedule : ScheduleType)
  (betaEnd : R) : R :=
  terminal_snrDb
    (betas_values (mkParams betaStart betaEnd numTimesteps schedule)).

(** One bisection step as the spec words it, on the pair [(low, high)], for
    a function [f] of [betaEnd]. *)
Definition bisection_step (f : R -> R) (target : R) (lh : R * R) : R * R :=
  let mid := (fst lh + snd lh) / 2 in
  if Rgt_dec (f mid) target then (mid, snd lh) else (fst lh, mid).

(** How two records of a schedule compare, the earlier one first. *)
Definition decays (r1 r2 : TimestepData) : Prop :=
  alphaBar r2 < alphaBar r1 /\
  snrDb r2 <= snrDb r1 /\
  (1e-20 < snr r1 -> snrDb r2 < snrDb r1).

(** The [alpha] of step [i + 1] of a LINEAR schedule of [k >= 2] steps. *)
Definition linear_alpha (bs be : R) (k : Z) (i : nat) : R :=
  1 - (bs + (be - bs) / (IZR k - 1) * INR i).

(** The value [linspace] puts at index [i] when it has [k >= 2] values. *)
Definition linspace_at (start end_ : R) (k : Z) (i : nat) : R :=
  start + (end_ - start) / (IZR k - 1) * INR i.

(** The five interpolating arms of [getBetas] have one shape: the two
    bounds go through [family_pre], [linspace] runs between the results, and
    every value comes back through [family_post]. *)
Definition family_pre (family : ScheduleType) (x : R) : R :=
  match family with
  | QUAD => sqrt x
  | SQRT => x ^ 2
  | LOG => ln (Rmax 1e-10 x) / ln 2
  | EXP => Rpower 2 x
  | _ => x
  end.

Definition family_post (family : ScheduleType) (v : R) : R :=
  match family with
  | QUAD => v * v
  | SQRT => sqrt v
  | LOG => Rpower 2 v
  | EXP => ln v / ln 2
  | _ => v
  end.

(** CONST and RECIP do not interpolate between the two bounds. *)
Definition interpolating (family : ScheduleType) : Prop :=
  family <> CONST /\ family <> RECIP.

(** The beta a bound stands for: itself, but for LOG, whose arm floors its
    argument at [1e-10]. *)
Definition effective_bound (family : ScheduleType) (x : R) : R :=
  match family with
  | LOG => Rmax 1e-10 x
  | _ => x
  end.

(** The terminal [alphaBar] as a function of [betaEnd]. *)
Definition terminal_alphaBar (betaStart numTimesteps : R)
  (schedule : ScheduleType) (betaEnd : R) : R :=
  alpha_product 1
    (betas_values (mkParams betaStart betaEnd numTimesteps schedule)).

(** Reading a line back: the pieces of [s] between the occurrences of
    [sep], as [s.split(sep)] gives them. *)
Fixpoint split_on (sep : Ascii.ascii) (s : String.string)
  : list String.string :=
  match s with
  | String.EmptyString => [String.EmptyString]
  | String.String c rest =>
      if Ascii.eqb c sep then String.EmptyString :: split_on sep rest
      else match split_on sep rest with
           | piece :: pieces => String.String c piece :: pieces
           | [] => [String.String c String.EmptyString]
           end
  end.

(** Whether the character [c] occurs in [s]. *)
Fixpoint occurs (c : Ascii.ascii) (s : String.string) : bool :=
  match s with
  | String.EmptyString => false
  | String.String c' rest => Ascii.eqb c' c || occurs c rest
  end.

(** [ceil(a / b)] on integers. *)
Definition ceil_div (a b : Z) : Z := ((a + b - 1) / b)%Z.

(** * Properties *)

(** ** Step counts *)

Lemma steps_pos n : (1 <= steps n)%Z.
Proof. unfold steps; lia. Qed.

Lemma count_steps n : Math_max 1 (Math_floor n) = IZR (steps n).
Proof.
  unfold Math_max, Math_floor, steps.
  destruct (Z.le_ge_cases 1 (Zfloor n)) as [H | H].
  - rewrite Z.max_r by assumption. apply Rmax_right. now apply IZR_le.
  - rewrite Z.max_l by lia. apply Rmax_left. apply IZR_le. lia.
Qed.

Lemma steps_IZR k : (1 <= k)%Z -> steps (IZR k) = k.
Proof. intros H. unfold steps. rewrite ZfloorZ. lia. Qed.

Lemma steps_idem n : steps (IZR (steps n)) = steps n.
Proof. apply steps_IZR, steps_pos. Qed.

Lemma ToLength_IZR k :
  (0 <= k)%Z -> ToLength (IZR k) = Z.min k (2 ^ 53 - 1).
Proof.
  intros H. unfold ToLength, ToIntegerOrInfinity.
  destruct (Rlt_dec (IZR k) 0) as [Hlt | _].
  - apply lt_IZR in Hlt. lia.
  - rewrite ZfloorZ. now rewrite Z.max_l by lia.
Qed.

Lemma ArrayCreate_ok k :
  (0 <= k <= max_array_length)%Z -> ArrayCreate k = Return (Z.to_nat k).
Proof.
  intros [H0 H1]. unfold ArrayCreate.
  apply Z.leb_le in H0. apply Z.leb_le in H1. now rewrite H0, H1.
Qed.

Lemma ArrayCreate_throw k :
  (max_array_length < k)%Z -> ArrayCreate k = Throw RangeError.
Proof.
  intros H. unfold ArrayCreate.
  apply Z.leb_gt in H. rewrite H. now rewrite Bool.andb_false_r.
Qed.

Lemma Array_from_ok {A : Type} k (f : nat -> A) :
  (0 <= k <= max_array_length)%Z ->
  Array_from (IZR k) f = Return (map f (seq 0 (Z.to_nat k))).
Proof.
  intros H. unfold Array_from. rewrite ToLength_IZR by lia.
  assert (Hk : Z.min k (2 ^ 53 - 1) = k).
  { unfold max_array_length in H. lia. }
  rewrite Hk, ArrayCreate_ok by assumption. reflexivity.
Qed.

Lemma Array_from_throw {A : Type} k (f : nat -> A) :
  (max_array_length < k)%Z -> Array_from (IZR k) f = Throw RangeError.
Proof.
  intros H. unfold Array_from.
  unfold max_array_length in H.
  rewrite ToLength_IZR by lia.
  rewrite ArrayCreate_throw; [reflexivity | unfold max_array_length; lia].
Qed.

Lemma Array_fill_ok {A : Type} k (v : A) :
  (0 <= k <= max_array_length)%Z ->
  Array_fill (IZR k) v = Return (repeat v (Z.to_nat k)).
Proof.
  intros H. unfold Array_fill. rewrite ZfloorZ.
  destruct (Req_dec_T (IZR k) (IZR k)) as [_ | Hne]; [| congruence].
  now rewrite ArrayCreate_ok.
Qed.

Lemma Array_fill_throw {A : Type} k (v : A) :
  (max_array_length < k)%Z -> Array_fill (IZR k) v = Throw RangeError.
Proof.
  intros H. unfold Array_fill. rewrite ZfloorZ.
  destruct (Req_dec_T (IZR k) (IZR k)) as [_ | Hne]; [| congruence].
  now rewrite ArrayCreate_throw.
Qed.

(** ** linspace in closed form *)

Lemma linspace_ok start end_ n :
  (steps n <= max_array_length)%Z ->
  linspace start end_ n = Return (linspace_values start end_ (steps n)).
Proof.
  intros Hn. unfold linspace, linspace_values. rewrite count_steps.
  pose proof (steps_pos n) as Hpos.
  destruct (Rlt_dec (IZR (steps n)) 2) as [Hlt | Hge].
  - apply lt_IZR in Hlt. apply Z.ltb_lt in Hlt. now rewrite Hlt.
  - assert (Hge' : (2 <= steps n)%Z).
    { apply Z.le_ngt. intros Hlt. apply Hge. now apply IZR_lt. }
    assert (Hb : (steps n <? 2)%Z = false) by now apply Z.ltb_ge.
    rewrite Hb. apply Array_from_ok. lia.
Qed.

Lemma linspace_throw start end_ n :
  (max_array_length < steps n)%Z ->
  linspace start end_ n = Throw RangeError.
Proof.
  intros Hn. unfold linspace. rewrite count_steps.
  destruct (Rlt_dec (IZR (steps n)) 2) as [Hlt | Hge].
  - apply lt_IZR in Hlt. unfold max_array_length in Hn. lia.
  - now apply Array_from_throw.
Qed.

Lemma linspace_values_length start end_ k :
  (1 <= k)%Z -> length (linspace_values start end_ k) = Z.to_nat k.
Proof.
  intros Hk. unfold linspace_values.
  destruct (k <? 2)%Z eqn:E.
  - apply Z.ltb_lt in E. assert (k = 1%Z) by lia. now subst.
  - now rewrite length_map, length_seq.
Qed.

Lemma linspace_values_nth start end_ k i :
  (2 <= k)%Z -> (i < Z.to_nat k)%nat ->
  nth i (linspace_values start end_ k) 0
  = start + (end_ - start) / (IZR k - 1) * INR i.
Proof.
  intros Hk Hi. unfold linspace_values.
  assert (Hb : (k <? 2)%Z = false) by now apply Z.ltb_ge.
  rewrite Hb.
  set (f := fun i0 : nat => start + (end_ - start) / (IZR k - 1) * INR i0).
  rewrite (nth_indep _ 0 (f 0%nat)) by now rewrite length_map, length_seq.
  rewrite map_nth. rewrite seq_nth by assumption. reflexivity.
Qed.

(** ** C5: linspace *)

(** C5, as stated, fails: [linspace] does not return [max(1, floor(n))]
    values for every finite [n].  At [n = 2^32] the effective count is
    [2^32], [Array.from({ length: 4294967296 }, ...)] asks for an array
    longer than an array can be, and the call throws a [RangeError]. *)
Lemma linspace_large_count_throws :
  steps 4294967296 = 4294967296%Z /\
  linspace 0 1 4294967296 = Throw RangeError.
Proof.
  assert (H : steps 4294967296 = 4294967296%Z) by (apply steps_IZR; lia).
  split; [exact H |].
  apply linspace_throw. rewrite H. unfold max_array_length. lia.
Qed.

(** C5, amended: for all reals [start], [end] and every [n] whose effective
    count [max(1, floor(n))] is an array length (at most [2^32 - 1]),
    [linspace] returns exactly that many values; a count of 1 gives
    [[start]]; otherwise the value at index [i] is [start + step * i] with
    [step = (end - start) / (count - 1)], index 0 holds [start] and the last
    index holds [end]. *)
Theorem linspace_spec (start end_ n : R) :
  (steps n <= 4294967295)%Z ->
  exists l : list R,
    linspace start end_ n = Return l /\
    length l = Z.to_nat (steps n) /\
    (steps n = 1%Z -> l = [start]) /\
    (steps n <> 1%Z ->
       (forall i : nat, (i < Z.to_nat (steps n))%nat ->
          nth i l 0 = start + (end_ - start) / (IZR (steps n) - 1) * INR i) /\
       nth 0 l 0 = start /\
       nth (Z.to_nat (steps n) - 1) l 0 = end_).
Proof.
  intros Hn. pose proof (steps_pos n) as Hpos.
  exists (linspace_values start end_ (steps n)).
  split; [apply linspace_ok; unfold max_array_length; lia |].
  split; [now apply linspace_values_length |].
  split.
  - intros H1. unfold linspace_values. now rewrite H1.
  - intros H1. assert (H2 : (2 <= steps n)%Z) by lia.
    split; [intros i Hi; now apply linspace_values_nth |].
    split.
    + rewrite linspace_values_nth by (assumption || lia). simpl. lra.
    + rewrite linspace_values_nth by (assumption || lia).
      assert (HI : INR (Z.to_nat (steps n) - 1) = IZR (steps n) - 1).
      { rewrite minus_INR by lia. rewrite INR_IZR_INZ, Z2Nat.id by lia.
        simpl. lra. }
      rewrite HI.
      assert (Hk : 2 <= IZR (steps n)) by now apply IZR_le.
      field. lra.
Qed.

Lemma linspace_spec_witness :
  (steps 3 <= 4294967295)%Z /\
  exists l : list R,
    linspace 0 1 3 = Return l /\
    length l = Z.to_nat (steps 3) /\
    (steps 3 = 1%Z -> l = [0]) /\
    (steps 3 <> 1%Z ->
       (forall i : nat, (i < Z.to_nat (steps 3))%nat ->
          nth i l 0 = 0 + (1 - 0) / (IZR (steps 3) - 1) * INR i) /\
       nth 0 l 0 = 0 /\
       nth (Z.to_nat (steps 3) - 1) l 0 = 1).
Proof.
  assert (H : (steps 3 <= 4294967295)%Z) by (rewrite steps_IZR; lia).
  split; [exact H | exact (linspace_spec 0 1 3 H)].
Defined.

(** ** The evaluator loop *)

Lemma schedule_loop_records betas : forall i ab results,
  schedule_loop betas i ab results = results ++ records_from betas i ab.
Proof.
  induction betas as [| b rest IH]; intros i ab results; simpl.
  - now rewrite app_nil_r.
  - rewrite IH, <- app_assoc. reflexivity.
Qed.

Lemma evaluate_records betas : evaluate betas = records_from betas 0 1.
Proof. unfold evaluate. now rewrite schedule_loop_records. Qed.

Lemma records_from_length betas : forall i ab,
  length (records_from betas i ab) = length betas.
Proof.
  induction betas as [| b rest IH]; intros i ab; simpl; [| rewrite IH];
    reflexivity.
Qed.

Lemma records_from_beta betas : forall i ab,
  map beta (records_from betas i ab) = betas.
Proof.
  induction betas as [| b rest IH]; intros i ab; simpl; [| rewrite IH];
    reflexivity.
Qed.

Lemma records_from_t betas : forall i ab,
  map t (records_from betas i ab)
  = map (fun j => Z.of_nat j + 1)%Z (seq i (length betas)).
Proof.
  induction betas as [| b rest IH]; intros i ab; simpl; [| rewrite IH];
    reflexivity.
Qed.

Lemma records_from_alphaBar betas : forall i ab,
  map alphaBar (records_from betas i ab)
  = map (cumulative_alpha ab betas) (seq 0 (length betas)).
Proof.
  induction betas as [| b rest IH]; intros i ab; simpl; [reflexivity |].
  f_equal. rewrite IH, <- seq_shift, map_map. reflexivity.
Qed.

Lemma records_from_Forall (P : TimestepData -> Prop) :
  (forall i b ab, P (record_at i b ab)) ->
  forall betas i ab, Forall P (records_from betas i ab).
Proof.
  intros HP betas. induction betas as [| b rest IH]; intros i ab; simpl;
    constructor; auto.
Qed.

(** ** C1: the per-step quantities *)

(** C1: for every beta sequence, [calculateSchedule]'s loop produces one
    record per beta, in order; [alphaBar] at step [i] is the left-to-right
    product of [alpha_1 .. alpha_i] seeded at 1, and in every record
    [alpha = 1 - beta], [oneMinusAlphaBar = 1 - alphaBar],
    [sqrtAlphaBar = sqrt alphaBar] and
    [sqrtOneMinusAlphaBar = sqrt oneMinusAlphaBar]. *)
Theorem evaluate_per_step (betas : list R) :
  length (evaluate betas) = length betas /\
  map beta (evaluate betas) = betas /\
  map alphaBar (evaluate betas)
  = map (cumulative_alpha 1 betas) (seq 0 (length betas)) /\
  Forall derived_fields (evaluate betas).
Proof.
  rewrite evaluate_records.
  split; [apply records_from_length |].
  split; [apply records_from_beta |].
  split; [apply records_from_alphaBar |].
  apply records_from_Forall. intros i b ab. repeat split.
Qed.

(** ** C4: the signal-to-noise ratio and its guards *)

(** C4: in every evaluated record [snr = alphaBar / oneMinusAlphaBar] with
    the denominator replaced by [1e-12] exactly when [oneMinusAlphaBar] is
    zero, and [snrDb = 10 * log10 (max 1e-20 snr)]; the evaluator is a total
    function of the beta sequence (no exception). *)
Theorem evaluate_snr (betas : list R) :
  Forall snr_fields (evaluate betas) /\
  Forall (fun r => oneMinusAlphaBar r <> 0 ->
                   snr r = alphaBar r / oneMinusAlphaBar r) (evaluate betas) /\
  Forall (fun r => oneMinusAlphaBar r = 0 ->
                   snr r = alphaBar r / 1e-12) (evaluate betas).
Proof.
  rewrite evaluate_records. repeat split.
  - apply records_from_Forall. intros i b ab. split; reflexivity.
  - apply records_from_Forall. intros i b ab H. simpl in *.
    unfold or_else. destruct (Req_dec_T (1 - ab) 0); [contradiction | easy].
  - apply records_from_Forall. intros i b ab H. simpl in *.
    unfold or_else. destruct (Req_dec_T (1 - ab) 0); [easy | contradiction].
Qed.

(** ** getBetas in closed form *)

Lemma getBetas_ok params :
  (steps (numTimesteps params) <= max_array_length)%Z ->
  getBetas params = Return (betas_values params).
Proof.
  intros Hn. unfold getBetas, betas_values. rewrite count_steps.
  pose proof (steps_pos (numTimesteps params)) as Hpos.
  destruct (schedule params); unfold fmap;
    try (rewrite linspace_ok by (now rewrite steps_idem));
    try rewrite steps_idem; try reflexivity.
  apply Array_fill_ok. lia.
Qed.

Lemma getBetas_throw params :
  (max_array_length < steps (numTimesteps params))%Z ->
  getBetas params = Throw RangeError.
Proof.
  intros Hn. unfold getBetas. rewrite count_steps.
  destruct (schedule params); unfold fmap;
    try (rewrite linspace_throw by (now rewrite steps_idem));
    try reflexivity.
  now apply Array_fill_throw.
Qed.

Lemma betas_values_length params :
  length (betas_values params) = Z.to_nat (steps (numTimesteps params)).
Proof.
  pose proof (steps_pos (numTimesteps params)) as Hpos.
  unfold betas_values.
  destruct (schedule params);
    rewrite ?length_map, ?linspace_values_length, ?repeat_length by assumption;
    reflexivity.
Qed.

Lemma calculateSchedule_ok params :
  (steps (numTimesteps params) <= max_array_length)%Z ->
  calculateSchedule params = Return (evaluate (betas_values params)).
Proof.
  intros Hn. unfold calculateSchedule. now rewrite getBetas_ok.
Qed.

Lemma calculateSchedule_throw params :
  (max_array_length < steps (numTimesteps params))%Z ->
  calculateSchedule params = Throw RangeError.
Proof.
  intros Hn. unfold calculateSchedule. now rewrite getBetas_throw.
Qed.

(** ** C2: the number of records and their step indices *)

(** C2, as stated, fails: with [numTimesteps = 2^32] the step count is
    [2^32], more than an array can hold; [getBetas] throws a [RangeError]
    and so does [calculateSchedule], for the default betas of the user
    interface and for every family (here LINEAR and CONST). *)
Lemma calculateSchedule_large_count_throws :
  calculateSchedule (mkParams 0.0001 0.02 4294967296 LINEAR)
  = Throw RangeError /\
  calculateSchedule (mkParams 0.0001 0.02 4294967296 CONST)
  = Throw RangeError.
Proof.
  assert (H : steps 4294967296 = 4294967296%Z) by (apply steps_IZR; lia).
  split; apply calculateSchedule_throw; simpl; rewrite H;
    unfold max_array_length; lia.
Qed.

(** C2, amended: for every family, all real [betaStart] and [betaEnd] and
    every [numTimesteps] with [max(1, floor(numTimesteps)) <= 2^32 - 1],
    [calculateSchedule] returns (it does not throw) exactly
    [max(1, floor(numTimesteps))] records, whose [t] fields are
    [1, 2, ..., N] in order. *)
Theorem calculateSchedule_count (params : DiffusionParams) :
  (steps (numTimesteps params) <= 4294967295)%Z ->
  exists records : list TimestepData,
    calculateSchedule params = Return records /\
    length records = Z.to_nat (steps (numTimesteps params)) /\
    map t records
    = map Z.of_nat (seq 1 (Z.to_nat (steps (numTimesteps params)))).
Proof.
  intros Hn. exists (evaluate (betas_values params)).
  split; [apply calculateSchedule_ok; unfold max_array_length; lia |].
  rewrite evaluate_records, records_from_length, records_from_t.
  rewrite betas_values_length. split; [reflexivity |].
  rewrite <- seq_shift, map_map. apply map_ext. intros j. lia.
Qed.

Lemma calculateSchedule_count_witness :
  (steps (numTimesteps (mkParams 0.1 0.3 2 LINEAR)) <= 4294967295)%Z /\
  exists records : list TimestepData,
    calculateSchedule (mkParams 0.1 0.3 2 LINEAR) = Return records /\
    length records = Z.to_nat (steps 2) /\
    map t records = map Z.of_nat (seq 1 (Z.to_nat (steps 2))).
Proof.
  assert (H : (steps (numTimesteps (mkParams 0.1 0.3 2 LINEAR))
               <= 4294967295)%Z) by (simpl; rewrite steps_IZR; lia).
  split; [exact H |].
  exact (calculateSchedule_count (mkParams 0.1 0.3 2 LINEAR) H).
Defined.

(** ** Logarithms *)

Lemma ln_10_pos : 0 < ln 10.
Proof. rewrite <- ln_1. apply ln_increasing; lra. Qed.

Lemma ln_2_pos : 0 < ln 2.
Proof. rewrite <- ln_1. apply ln_increasing; lra. Qed.

Lemma ln_le_compat x y : 0 < x -> x <= y -> ln x <= ln y.
Proof.
  intros Hx [Hlt | Heq]; [left; now apply ln_increasing | subst; lra].
Qed.

Lemma Math_log10_le x y : 0 < x -> x <= y -> Math_log10 x <= Math_log10 y.
Proof.
  intros Hx Hxy. unfold Math_log10, Rdiv.
  apply Rmult_le_compat_r; [left; apply Rinv_0_lt_compat, ln_10_pos |].
  now apply ln_le_compat.
Qed.

Lemma Math_log10_lt x y : 0 < x -> x < y -> Math_log10 x < Math_log10 y.
Proof.
  intros Hx Hxy. unfold Math_log10, Rdiv.
  apply Rmult_lt_compat_r; [apply Rinv_0_lt_compat, ln_10_pos |].
  now apply ln_increasing.
Qed.

Lemma Math_log10_floor : Math_log10 1e-20 = -20.
Proof.
  unfold Math_log10.
  replace 1e-20 with (/ 10 ^ 20) by lra.
  rewrite ln_Rinv by lra. rewrite ln_pow by lra.
  pose proof ln_10_pos. simpl INR. field. lra.
Qed.

Lemma Math_pow_log2 x : 0 < x -> Math_pow 2 (Math_log2 x) = x.
Proof.
  intros Hx. unfold Math_pow, Math_log2, Rpower.
  replace (ln x / ln 2 * ln 2) with (ln x)
    by (pose proof ln_2_pos; field; lra).
  now apply exp_ln.
Qed.

Lemma Math_log2_pow x : Math_log2 (Math_pow 2 x) = x.
Proof.
  unfold Math_pow, Math_log2. rewrite ln_Rpower.
  pose proof ln_2_pos. field. lra.
Qed.

Lemma decibels_le x y : x <= y -> decibels x <= decibels y.
Proof.
  intros Hxy. unfold decibels, Math_max.
  apply Rmult_le_compat_l; [lra |].
  apply Math_log10_le.
  - pose proof (Rmax_l 1e-20 x). lra.
  - now apply Rle_max_compat_l.
Qed.

Lemma decibels_lt x y : 1e-20 < y -> x < y -> decibels x < decibels y.
Proof.
  intros Hy Hxy. unfold decibels, Math_max.
  apply Rmult_lt_compat_l; [lra |].
  apply Math_log10_lt.
  - pose proof (Rmax_l 1e-20 x). lra.
  - rewrite (Rmax_right 1e-20 y) by lra. apply Rmax_lub_lt; lra.
Qed.

Lemma decibels_floor x : -200 <= decibels x.
Proof.
  unfold decibels, Math_max.
  replace (-200) with (10 * Math_log10 1e-20)
    by (rewrite Math_log10_floor; lra).
  apply Rmult_le_compat_l; [lra |].
  apply Math_log10_le; [lra | apply Rmax_l].
Qed.

Lemma decibels_clamped x : x <= 1e-20 -> decibels x = -200.
Proof.
  intros Hx. unfold decibels, Math_max.
  rewrite Rmax_left by assumption. rewrite Math_log10_floor. lra.
Qed.

Lemma record_at_snrDb i b ab :
  snrDb (record_at i b ab) = decibels (snr (record_at i b ab)).
Proof. reflexivity. Qed.

(** ** C10: the floor of snrDb *)

Section OverflowingRun.

Import PrimFloat.
Local Open Scope float_scope.
#[local] Set Warnings "-inexact-float".

(** C10, as stated, fails in the code's doubles: with the two betas
    [1e200, 1e200] (CONST with [betaEnd = 1e200] and two steps) the second
    [alphaBar] is [(-1e200) * (-1e200)], which overflows to [Infinity];
    then [1 - alphaBar] is [-Infinity], [snr = Infinity / -Infinity] is
    [NaN], [Math.max(1e-20, NaN)] is [NaN] and so is [snrDb], whatever
    [Math.log10] returns on numbers: [-200 <= snrDb] is false. *)
Lemma overflow_snrDb_is_nan :
  exists r : Binary64.Row,
    nth_error (Binary64.evaluate (Binary64.betas_CONST 1e200 2)) 1 = Some r /\
    Binary64.beta r = 1e200 /\
    Binary64.alphaBar r = infinity /\
    Binary64.oneMinusAlphaBar r = neg_infinity /\
    Binary64.snr r = nan /\
    Binary64.log10_argument r = nan /\
    forall approx : float -> float,
      Binary64.snrDb approx r = nan /\
      leb (-200) (Binary64.snrDb approx r) = false.
Proof.
  eexists. split; [vm_compute; reflexivity |].
  do 5 (split; [reflexivity |]).
  intros f. split; reflexivity.
Qed.

End OverflowingRun.

(** C10, amended: in exact arithmetic on finite numbers (no product has
    overflowed, no [NaN]), whatever the beta sequence, every record of the
    evaluator has [snrDb >= -200], and [-200] is [10 * log10 1e-20]: the
    clamp inside the logarithm bounds [snrDb] from below even where [snr]
    is zero or negative. *)
Theorem snrDb_lower_bound (betas : list R) :
  10 * Math_log10 1e-20 = -200 /\
  Forall (fun r => -200 <= snrDb r) (evaluate betas).
Proof.
  split; [rewrite Math_log10_floor; lra |].
  rewrite evaluate_records. apply records_from_Forall.
  intros i b ab. rewrite record_at_snrDb. apply decibels_floor.
Qed.

(** ** Sequences given by their index *)

Lemma StronglySorted_map_seq (rel : R -> R -> Prop) (f : nat -> R) :
  forall k a,
    (forall i j, (a <= i)%nat -> (i < j)%nat -> (j < a + k)%nat ->
                 rel (f i) (f j)) ->
    StronglySorted rel (map f (seq a k)).
Proof.
  induction k as [| k IH]; intros a Hrel; simpl; constructor.
  - apply IH. intros i j Hi Hij Hj. apply Hrel; lia.
  - apply Forall_forall. intros x Hx.
    apply in_map_iff in Hx. destruct Hx as [j [<- Hj]].
    apply in_seq in Hj. apply Hrel; lia.
Qed.

Lemma last_map_seq (f : nat -> R) k d :
  last (map f (seq 0 (S k))) d = f k.
Proof. rewrite seq_S, map_app. simpl. apply last_last. Qed.

Lemma INR_lt_steps (k : Z) (i : nat) :
  (i < Z.to_nat k)%nat -> INR i <= IZR k - 1.
Proof.
  intros Hi. rewrite INR_IZR_INZ.
  replace (IZR k - 1) with (IZR (k - 1)) by (rewrite minus_IZR; lra).
  apply IZR_le. lia.
Qed.

(** ** C9: the RECIP family *)

(** What [linspace(n, 1, n)] holds: [n, n - 1, ..., 1]. *)
Lemma linspace_values_countdown k :
  (1 <= k)%Z ->
  linspace_values (IZR k) 1 k
  = map (fun i => IZR k - INR i) (seq 0 (Z.to_nat k)).
Proof.
  intros Hk. unfold linspace_values. destruct (k <? 2)%Z eqn:E.
  - apply Z.ltb_lt in E. assert (k = 1%Z) by lia. subst. simpl.
    f_equal. lra.
  - apply Z.ltb_ge in E. apply map_ext. intros i.
    assert (2 <= IZR k) by now apply IZR_le.
    field. lra.
Qed.

Section RecipRun.

Import PrimFloat.
Local Open Scope float_scope.
#[local] Set Warnings "-inexact-float".

(** C9, as stated, fails.  With [numTimesteps = 2^32] no sequence is
    generated: [linspace(n, 1, n)] throws a [RangeError].  And in the
    code's doubles the values are [betaEnd * (1 / v)], not [betaEnd / v]:
    with [betaEnd = 0.02] and three steps the first one is
    [0.02 * (1 / 3) = 0.006666666666666666], which is not [0.02 / 3]; with
    [betaEnd = 5e-324] (positive) and four steps the first three values
    are all [0] and do not ascend. *)
Lemma recip_betas_not_as_claimed :
  (steps 4294967296%R = 4294967296%Z /\
   getBetas (mkParams 0.0001%R 0.02%R 4294967296%R RECIP)
   = Throw RangeError) /\
  (Binary64.linspace 3 1 3 = [3; 2; 1] /\
   Binary64.betas_RECIP 0.02 3 = [0.02 * (1 / 3); 0.02 * (1 / 2); 0.02] /\
   eqb (0.02 * (1 / 3)) (0.02 / 3) = false) /\
  (ltb 0 5e-324 = true /\
   Binary64.betas_RECIP 5e-324 4 = [0; 0; 0; 5e-324]).
Proof.
  assert (H : steps 4294967296%R = 4294967296%Z) by (apply steps_IZR; lia).
  split; [split; [exact H |] |].
  - apply getBetas_throw. cbn [numTimesteps]. rewrite H.
    unfold max_array_length. lia.
  - repeat split; vm_compute; reflexivity.
Qed.

End RecipRun.

(** C9, amended: in exact arithmetic, for the RECIP family with
    [n = max(1, floor(numTimesteps))] steps, [n] an array length,
    [linspace(n, 1, n)] is [v = n, n - 1, ..., 1], strictly descending, and
    [getBetas] returns exactly the [n] values [betaEnd * (1 / v)], in that
    order; for [betaEnd > 0] they ascend strictly, from [betaEnd / n] at the
    first step to [betaEnd] at the last. *)
Theorem recip_betas (bs be nt : R) :
  (steps nt <= 4294967295)%Z ->
  exists v betas : list R,
    linspace (IZR (steps nt)) 1 (IZR (steps nt)) = Return v /\
    v = map (fun i => IZR (steps nt) - INR i)
            (seq 0 (Z.to_nat (steps nt))) /\
    StronglySorted Rgt v /\
    getBetas (mkParams bs be nt RECIP) = Return betas /\
    betas = map (fun x => be * (1 / x)) v /\
    length betas = Z.to_nat (steps nt) /\
    (0 < be ->
     StronglySorted Rlt betas /\
     hd 0 betas = be / IZR (steps nt) /\
     last betas 0 = be).
Proof.
  intros Hn. pose proof (steps_pos nt) as Hpos.
  set (k := steps nt) in *.
  assert (Hmax : (k <= max_array_length)%Z) by (unfold max_array_length; lia).
  assert (Hk1 : 1 <= IZR k) by now apply IZR_le.
  exists (linspace_values (IZR k) 1 k).
  exists (map (fun x => be * (1 / x)) (linspace_values (IZR k) 1 k)).
  split.
  { rewrite linspace_ok; unfold k; rewrite steps_idem; auto. }
  split; [now apply linspace_values_countdown |].
  split.
  { rewrite linspace_values_countdown by assumption.
    apply StronglySorted_map_seq. intros i j _ Hij _.
    apply lt_INR in Hij. unfold Rgt. lra. }
  split.
  { rewrite getBetas_ok by assumption. reflexivity. }
  split; [reflexivity |].
  split.
  { rewrite length_map. now apply linspace_values_length. }
  intros Hbe. rewrite linspace_values_countdown by assumption.
  rewrite map_map.
  split; [| split].
  - apply StronglySorted_map_seq. intros i j _ Hij Hj.
    pose proof (INR_lt_steps k j Hj) as Hjk. apply lt_INR in Hij.
    unfold Rdiv. rewrite !Rmult_1_l.
    apply Rmult_lt_compat_l; [assumption |].
    apply Rinv_lt_contravar; [| lra].
    apply Rmult_lt_0_compat; lra.
  - destruct (Z.to_nat k) as [| m] eqn:E; [lia |]. simpl.
    rewrite Rminus_0_r. unfold Rdiv. now rewrite Rmult_1_l.
  - destruct (Z.to_nat k) as [| m] eqn:E; [lia |].
    rewrite last_map_seq.
    assert (Hm : INR m = IZR k - 1).
    { rewrite INR_IZR_INZ.
      replace (Z.of_nat m) with (k - 1)%Z by lia.
      rewrite minus_IZR. lra. }
    rewrite Hm. replace (IZR k - (IZR k - 1)) with 1 by lra. field.
Qed.

Lemma recip_betas_witness :
  (steps 4 <= 4294967295)%Z /\
  exists v betas : list R,
    linspace (IZR (steps 4)) 1 (IZR (steps 4)) = Return v /\
    v = map (fun i => IZR (steps 4) - INR i) (seq 0 (Z.to_nat (steps 4))) /\
    StronglySorted Rgt v /\
    getBetas (mkParams 0.0001 0.02 4 RECIP) = Return betas /\
    betas = map (fun x => 0.02 * (1 / x)) v /\
    length betas = Z.to_nat (steps 4) /\
    (0 < 0.02 ->
     StronglySorted Rlt betas /\
     hd 0 betas = 0.02 / IZR (steps 4) /\
     last betas 0 = 0.02).
Proof.
  assert (H : (steps 4 <= 4294967295)%Z) by (rewrite steps_IZR; lia).
  split; [exact H | exact (recip_betas 0.0001 0.02 4 H)].
Defined.

(** ** C7: a single step *)

Lemma steps_one : steps 1 = 1%Z.
Proof. apply steps_IZR. lia. Qed.

Lemma evaluate_single b : evaluate [b] = [record_at 0 b (1 - b)].
Proof. rewrite evaluate_records. simpl. now rewrite Rmult_1_l. Qed.

Lemma calculateSchedule_single bs be family :
  calculateSchedule (mkParams bs be 1 family)
  = Return (evaluate (betas_values (mkParams bs be 1 family))).
Proof.
  apply calculateSchedule_ok. simpl. rewrite steps_one.
  unfold max_array_length. lia.
Qed.

(** C7, as stated, fails for the LOG family: with [betaStart = 1e-11] (a
    start value in (0,1)) and one step, the single beta is
    [2 ^ log2 (max 1e-10 1e-11) = 1e-10], not [betaStart]. *)
Lemma log_single_step_not_betaStart :
  exists r : TimestepData,
    calculateSchedule (mkParams 1e-11 0.02 1 LOG) = Return [r] /\
    beta r = 1e-10 /\
    beta r <> betaStart (mkParams 1e-11 0.02 1 LOG).
Proof.
  exists (record_at 0 1e-10 (1 - 1e-10)).
  split.
  - rewrite calculateSchedule_single. unfold betas_values. simpl.
    rewrite steps_one. unfold linspace_values. simpl.
    rewrite (Rmax_left 1e-10 1e-11) by lra.
    change (Rpower 2 (ln 1e-10 / ln 2)) with (Math_pow 2 (Math_log2 1e-10)).
    rewrite Math_pow_log2 by lra. now rewrite evaluate_single.
  - simpl. split; [reflexivity | lra].
Qed.

(** C7, amended: for any family, [numTimesteps = 1] yields a single record
    with [alphaBar = 1 - beta]; its [beta] is [betaStart] for LINEAR and
    EXP, and for QUAD and SQRT when [betaStart >= 0]; for LOG it is
    [max 1e-10 betaStart], which is [betaStart] when [betaStart >= 1e-10];
    for CONST and RECIP it is [betaEnd]. *)
Theorem single_step_schedule (bs be : R) (family : ScheduleType) :
  exists r : TimestepData,
    calculateSchedule (mkParams bs be 1 family) = Return [r] /\
    alphaBar r = 1 - beta r /\
    match family with
    | LINEAR | EXP => beta r = bs
    | QUAD | SQRT => 0 <= bs -> beta r = bs
    | LOG => beta r = Rmax 1e-10 bs /\ (1e-10 <= bs -> beta r = bs)
    | CONST | RECIP => beta r = be
    end.
Proof.
  rewrite calculateSchedule_single. unfold betas_values. simpl.
  rewrite steps_one. unfold linspace_values. simpl.
  destruct family; simpl; rewrite evaluate_single;
    eexists; (split; [reflexivity |]); (split; [reflexivity |]); simpl.
  - reflexivity.
  - intros H. now apply sqrt_sqrt.
  - intros H. replace (bs * (bs * 1)) with (bs ^ 2) by (simpl; ring).
    now apply sqrt_pow2.
  - reflexivity.
  - field.
  - assert (Hpos : 0 < Rmax 1e-10 bs).
    { pose proof (Rmax_l 1e-10 bs). lra. }
    change (Rpower 2 (ln (Rmax 1e-10 bs) / ln 2))
      with (Math_pow 2 (Math_log2 (Rmax 1e-10 bs))).
    rewrite Math_pow_log2 by assumption.
    split; [reflexivity | intros H; now apply Rmax_right].
  - change (ln (Rpower 2 bs) / ln 2) with (Math_log2 (Math_pow 2 bs)).
    apply Math_log2_pow.
Qed.

(** ** The terminal record *)

Lemma final_snrDb_records betas : forall i ab,
  betas <> [] ->
  final_snrDb (records_from betas i ab)
  = Return (decibels (snr_of (alpha_product ab betas))).
Proof.
  induction betas as [| b rest IH]; intros i ab Hne; [congruence |].
  destruct rest as [| b' rest'].
  - reflexivity.
  - specialize (IH (S i) (ab * (1 - b)) ltac:(discriminate)).
    change (alpha_product ab (b :: b' :: rest'))
      with (alpha_product (ab * (1 - b)) (b' :: rest')).
    rewrite <- IH. reflexivity.
Qed.

Lemma betas_values_nonempty params : betas_values params <> [].
Proof.
  intros H. apply (f_equal (@length R)) in H.
  rewrite betas_values_length in H. simpl in H.
  pose proof (steps_pos (numTimesteps params)). lia.
Qed.

Lemma final_snrDb_schedule bs be nt family :
  final_snrDb (evaluate (betas_values (mkParams bs be nt family)))
  = Return (terminal_of bs nt family be).
Proof.
  rewrite evaluate_records.
  rewrite final_snrDb_records by apply betas_values_nonempty. reflexivity.
Qed.

(** ** Bisection on the reals *)

Section Bisection.

Variable f : R -> R.
Variable target : R.

(** The bracket never leaves the interval it started from, and never
    collapses. *)
Lemma bisection_bracket iters : forall low high,
  low < high ->
  let lh := Nat.iter iters (bisection_step f target) (low, high) in
  low <= fst lh /\ fst lh < snd lh /\ snd lh <= high.
Proof.
  induction iters as [| k IH]; intros low high Hlt; simpl.
  - lra.
  - specialize (IH low high Hlt). simpl in IH.
    destruct (Nat.iter k (bisection_step f target) (low, high)) as [l h].
    simpl in IH. unfold bisection_step. simpl.
    destruct (Rgt_dec (f ((l + h) / 2)) target); simpl; lra.
Qed.

(** When [f] separates the two sides of [x] over the search interval, the
    bracket keeps [x] inside and halves at each step. *)
Lemma bisection_keeps_root (x low0 high0 : R) :
  (forall mid, low0 <= mid <= high0 -> mid < x -> f mid > target) ->
  (forall mid, low0 <= mid <= high0 -> x <= mid -> ~ f mid > target) ->
  low0 < high0 -> low0 <= x <= high0 ->
  forall iters,
    let lh := Nat.iter iters (bisection_step f target) (low0, high0) in
    low0 <= fst lh /\ fst lh <= x /\ x <= snd lh /\ snd lh <= high0 /\
    snd lh - fst lh = (high0 - low0) / 2 ^ iters.
Proof.
  intros Hbelow Habove Hlt Hx. induction iters as [| k IH]; simpl.
  - repeat split; lra.
  - simpl in IH.
    destruct (Nat.iter k (bisection_step f target) (low0, high0)) as [l h].
    simpl in IH. destruct IH as [Hl [Hlx [Hxh [Hh Hw]]]].
    assert (Hpow : 0 < 2 ^ k) by (apply pow_lt; lra).
    assert (Hhalf : (h - l) / 2 = (high0 - low0) / (2 * 2 ^ k)).
    { rewrite Hw. field. lra. }
    unfold bisection_step. cbn [fst snd].
    destruct (Rgt_dec (f ((l + h) / 2)) target) as [Hgt | Hngt]; cbn [fst snd].
    + assert (Hmid : (l + h) / 2 < x).
      { apply Rnot_le_lt. intros Hge.
        apply (Habove ((l + h) / 2)); [lra | assumption | assumption]. }
      repeat split; lra.
    + assert (Hmid : x <= (l + h) / 2).
      { apply Rnot_lt_le. intros Hlt'.
        apply Hngt. apply Hbelow; [lra | assumption]. }
      repeat split; lra.
Qed.

(** When [f] never exceeds the target, [high] alone moves. *)
Lemma bisection_flat (low0 high0 : R) :
  (forall mid, ~ f mid > target) ->
  forall iters,
    Nat.iter iters (bisection_step f target) (low0, high0)
    = (low0, low0 + (high0 - low0) / 2 ^ iters).
Proof.
  intros Hflat. induction iters as [| k IH]; simpl.
  - f_equal. lra.
  - rewrite IH. unfold bisection_step. cbn [fst snd].
    destruct (Rgt_dec _ target) as [Hgt | _]; [now apply Hflat in Hgt |].
    assert (Hpow : 0 < 2 ^ k) by (apply pow_lt; lra).
    f_equal. field. lra.
Qed.

End Bisection.

(** ** C3: the bisection *)

Lemma bisect_iter target bs nt family :
  (steps nt <= max_array_length)%Z ->
  forall iters low high,
    bisect target bs nt family iters low high
    = Return (snd (Nat.iter iters
                     (bisection_step (terminal_of bs nt family) target)
                     (low, high))).
Proof.
  intros Hn. induction iters as [| k IH]; intros low high.
  - reflexivity.
  - rewrite Nat.iter_succ_r. cbn [bisect].
    rewrite calculateSchedule_ok by assumption. cbn [bind].
    rewrite final_snrDb_schedule. cbn [bind].
    unfold bisection_step at 2. cbn [fst snd].
    destruct (Rgt_dec (terminal_of bs nt family ((low + high) / 2)) target);
      apply IH.
Qed.

(** C3, amended: for a finite [numTimesteps] whose step count is an array
    length (at most [2^32 - 1]), [solveBetaEndForSNR]
    returns the [high] left by exactly 40 bisection steps from
    [(1e-7, 0.999)], each step moving [low] to [mid = (low + high) / 2] when
    the terminal [snrDb] of the schedule evaluated with [betaEnd = mid]
    exceeds the target and [high] to [mid] otherwise; the value returned
    lies in (1e-7, 0.999]. *)
Theorem solveBetaEndForSNR_bisection (target bs nt : R)
  (family : ScheduleType) :
  (steps nt <= 4294967295)%Z ->
  (forall mid : R,
     exists data : list TimestepData,
       calculateSchedule (mkParams bs mid nt family) = Return data /\
       final_snrDb data = Return (terminal_of bs nt family mid)) /\
  exists high : R,
    solveBetaEndForSNR target bs nt family = Return high /\
    high = snd (Nat.iter 40
                  (bisection_step (terminal_of bs nt family) target)
                  (1e-7, 0.999)) /\
    1e-7 < high <= 0.999.
Proof.
  intros Hn.
  assert (Hmax : (steps nt <= max_array_length)%Z)
    by (unfold max_array_length; lia).
  split.
  - intros mid. eexists. split.
    + now apply calculateSchedule_ok.
    + apply final_snrDb_schedule.
  - eexists. split; [| split; [reflexivity |]].
    + unfold solveBetaEndForSNR. rewrite bisect_iter by assumption.
      replace 0.0000001 with 1e-7 by lra. reflexivity.
    + pose proof (bisection_bracket (terminal_of bs nt family) target 40
                    1e-7 0.999 ltac:(lra)) as H.
      cbv zeta in H. lra.
Qed.

Lemma solveBetaEndForSNR_bisection_witness :
  (steps 100 <= 4294967295)%Z /\
  exists high : R,
    solveBetaEndForSNR 0 0.0001 100 LINEAR = Return high /\
    high = snd (Nat.iter 40
                  (bisection_step (terminal_of 0.0001 100 LINEAR) 0)
                  (1e-7, 0.999)) /\
    1e-7 < high <= 0.999.
Proof.
  assert (H : (steps 100 <= 4294967295)%Z) by (rewrite steps_IZR; lia).
  split; [exact H |].
  exact (proj2 (solveBetaEndForSNR_bisection 0 0.0001 100 LINEAR H)).
Defined.

(** ** Schedules whose betas lie in (0,1) *)

Lemma or_else_nonzero x d : x <> 0 -> or_else x d = x.
Proof.
  intros H. unfold or_else. destruct (Req_dec_T x 0); [contradiction | easy].
Qed.

Lemma snr_of_lt x y : 0 < x -> x < y -> y < 1 -> snr_of x < snr_of y.
Proof.
  intros Hx Hxy Hy. unfold snr_of. rewrite !or_else_nonzero by lra.
  unfold Rdiv.
  assert (Hix : 0 < / (1 - x)) by (apply Rinv_0_lt_compat; lra).
  assert (Hinv : / (1 - x) < / (1 - y)).
  { apply Rinv_lt_contravar; [apply Rmult_lt_0_compat; lra | lra]. }
  apply Rlt_trans with (y * / (1 - x)).
  - apply Rmult_lt_compat_r; assumption.
  - apply Rmult_lt_compat_l; lra.
Qed.

Lemma snr_of_small x : 0 < x -> x <= 9e-21 -> snr_of x <= 1e-20.
Proof.
  intros H0 Hx. unfold snr_of. rewrite or_else_nonzero by lra.
  apply Rmult_le_reg_r with (1 - x); [lra |].
  unfold Rdiv. rewrite Rmult_assoc, Rinv_l by lra. lra.
Qed.

Lemma record_at_snr i b ab : snr (record_at i b ab) = snr_of ab.
Proof. reflexivity. Qed.

(** The accumulator stays in (0, seed) along the loop. *)
Lemma records_from_alphaBar_range betas : forall i ab,
  Forall (fun b => 0 < b < 1) betas -> 0 < ab ->
  Forall (fun r => 0 < alphaBar r < ab) (records_from betas i ab).
Proof.
  induction betas as [| b rest IH]; intros i ab Hb Hab; simpl;
    constructor; inversion Hb as [| ? ? Hb0 Hrest]; subst.
  - simpl. nra.
  - assert (Hab' : 0 < ab * (1 - b)) by nra.
    specialize (IH (S i) _ Hrest Hab').
    eapply Forall_impl; [| exact IH]. simpl. intros r Hr. nra.
Qed.

Lemma record_at_decays i j b1 b2 ab1 ab2 :
  0 < ab2 -> ab2 < ab1 -> ab1 < 1 ->
  decays (record_at i b1 ab1) (record_at j b2 ab2).
Proof.
  intros H0 H12 H1. unfold decays.
  rewrite !record_at_snrDb, !record_at_snr.
  pose proof (snr_of_lt ab2 ab1 H0 H12 H1) as Hsnr.
  split; [exact H12 |]. split.
  - apply decibels_le. lra.
  - intros Hfloor. now apply decibels_lt.
Qed.

Lemma records_from_shape betas i ab :
  Forall (fun r => exists j b' ab', r = record_at j b' ab')
         (records_from betas i ab).
Proof. apply records_from_Forall. intros. eauto. Qed.

Lemma records_from_decays betas : forall i ab,
  Forall (fun b => 0 < b < 1) betas -> 0 < ab <= 1 ->
  StronglySorted decays (records_from betas i ab).
Proof.
  induction betas as [| b rest IH]; intros i ab Hb Hab; simpl;
    constructor; inversion Hb as [| ? ? Hb0 Hrest]; subst.
  - apply IH; [assumption | nra].
  - assert (Hab' : 0 < ab * (1 - b)) by nra.
    pose proof (records_from_alphaBar_range rest (S i) _ Hrest Hab') as Hrange.
    pose proof (records_from_shape rest (S i) (ab * (1 - b))) as Hshape.
    rewrite Forall_forall in *. intros r Hr.
    destruct (Hshape r Hr) as [j [b' [ab' ->]]].
    specialize (Hrange _ Hr). simpl in Hrange.
    apply record_at_decays; nra.
Qed.

Lemma StronglySorted_map {A B : Type} (rel : B -> B -> Prop) (f : A -> B) l :
  StronglySorted (fun x y => rel (f x) (f y)) l ->
  StronglySorted rel (map f l).
Proof.
  induction 1 as [| x l Hl IH Hx]; simpl; constructor; auto.
  rewrite Forall_map. exact Hx.
Qed.

Lemma StronglySorted_impl {A : Type} (r1 r2 : A -> A -> Prop) l :
  (forall x y, r1 x y -> r2 x y) ->
  StronglySorted r1 l -> StronglySorted r2 l.
Proof.
  intros Himp. induction 1 as [| x l Hl IH Hx]; constructor; auto.
  eapply Forall_impl; [| exact Hx]. auto.
Qed.

(** Every value of [linspace] lies between its two ends. *)
Lemma linspace_values_between lo hi start end_ k :
  (1 <= k)%Z -> lo <= start <= hi -> lo <= end_ <= hi ->
  Forall (fun v => lo <= v <= hi) (linspace_values start end_ k).
Proof.
  intros Hk Hs He. unfold linspace_values.
  destruct (k <? 2)%Z eqn:E; [constructor; [lra | constructor] |].
  apply Z.ltb_ge in E. rewrite Forall_map, Forall_forall.
  intros i Hi. apply in_seq in Hi.
  assert (Hk2 : 2 <= IZR k) by now apply IZR_le.
  assert (Hi1 : INR i <= IZR k - 1) by (apply INR_lt_steps; lia).
  assert (Hi0 : 0 <= INR i) by apply pos_INR.
  set (theta := INR i / (IZR k - 1)).
  assert (Htheta : 0 <= theta <= 1).
  { unfold theta. split.
    - apply Rmult_le_pos; [assumption |].
      left. apply Rinv_0_lt_compat. lra.
    - apply Rmult_le_reg_r with (IZR k - 1); [lra |].
      unfold Rdiv. rewrite Rmult_assoc, Rinv_l by lra. lra. }
  replace (start + (end_ - start) / (IZR k - 1) * INR i)
    with (start + (end_ - start) * theta) by (unfold theta; field; lra).
  nra.
Qed.

(** ** C6: the LINEAR family *)

Lemma steps_three : steps 3 = 3%Z.
Proof. apply steps_IZR. lia. Qed.

(** C6, as stated, fails on [snrDb]: with [betaStart = 0.9999999999],
    [betaEnd = 0.99999999999] (so [0 < betaStart < betaEnd < 1]) and three
    steps, [alphaBar] is [1e-10], then [5.5e-21], then [5.5e-32]; the [snr]
    of steps 2 and 3 is below [1e-20], the clamp inside the logarithm takes
    over, and both have [snrDb = -200]: not strictly decreasing. *)
Lemma linear_snrDb_clamped_not_decreasing :
  0 < 0.9999999999 /\ 0.9999999999 < 0.99999999999 /\ 0.99999999999 < 1 /\
  exists r1 r2 r3 : TimestepData,
    calculateSchedule (mkParams 0.9999999999 0.99999999999 3 LINEAR)
    = Return [r1; r2; r3] /\
    snrDb r2 = -200 /\ snrDb r3 = -200 /\ ~ snrDb r3 < snrDb r2.
Proof.
  split; [lra |]. split; [lra |]. split; [lra |].
  rewrite calculateSchedule_ok
    by (simpl; rewrite steps_three; unfold max_array_length; lia).
  unfold betas_values. cbn [numTimesteps schedule betaStart betaEnd].
  rewrite steps_three. unfold linspace_values.
  cbn [Z.ltb Z.compare Pos.compare Pos.compare_cont Z.to_nat Pos.to_nat
       Pos.iter_op Nat.add seq map].
  rewrite evaluate_records. cbn [records_from].
  do 3 eexists. split; [reflexivity |].
  assert (H2 : snrDb (record_at 1
             (0.9999999999 + (0.99999999999 - 0.9999999999) / (3 - 1) * INR 1)
             (1 * (1 - (0.9999999999
                        + (0.99999999999 - 0.9999999999) / (3 - 1) * INR 0))
                * (1 - (0.9999999999
                        + (0.99999999999 - 0.9999999999) / (3 - 1) * INR 1))))
           = -200).
  { rewrite record_at_snrDb, record_at_snr.
    apply decibels_clamped, snr_of_small; simpl INR; lra. }
  split; [exact H2 |]. split.
  - rewrite record_at_snrDb, record_at_snr.
    apply decibels_clamped, snr_of_small; simpl INR; lra.
  - rewrite H2. rewrite record_at_snrDb, record_at_snr.
    rewrite decibels_clamped; [lra |].
    apply snr_of_small; simpl INR; lra.
Qed.

Lemma evaluate_decays betas :
  Forall (fun b => 0 < b < 1) betas ->
  StronglySorted decays (evaluate betas).
Proof.
  intros Hb. rewrite evaluate_records. apply records_from_decays;
    [assumption | lra].
Qed.

Lemma linear_betas_in_unit bs be k :
  (1 <= k)%Z -> 0 < bs < 1 -> 0 < be < 1 ->
  Forall (fun b => 0 < b < 1) (linspace_values bs be k).
Proof.
  intros Hk Hs He.
  pose proof (linspace_values_between (Rmin bs be) (Rmax bs be) bs be k Hk)
    as H.
  eapply Forall_impl; [| apply H].
  - simpl. intros v Hv.
    assert (0 < Rmin bs be) by (apply Rmin_glb_lt; lra).
    assert (Rmax bs be < 1) by (apply Rmax_lub_lt; lra).
    lra.
  - split; [apply Rmin_l | apply Rmax_l].
  - split; [apply Rmin_r | apply Rmax_r].
Qed.

Section LinearRun.

Import PrimFloat.
Local Open Scope float_scope.
#[local] Set Warnings "-inexact-float".

(** Why the amended C6 is a statement of exact arithmetic: in the code's
    doubles, LINEAR with [betaStart = 1e-18], [betaEnd = 1e-17] and two
    steps has [alpha = 1 - beta = 1] at both steps, so [alphaBar] is
    [1, 1] and does not decrease; with [1e-17] and [1.2e-16] the first
    [1 - alphaBar] is [0] and replaced by [1e-12], the second is
    [2^-53], and the argument of the logarithm rises from [1e12] to
    [2^53 - 1]. *)
Lemma linear_alphaBar_stalls :
  (ltb 0 1e-18 && ltb 1e-18 1e-17 && ltb 1e-17 1)%bool = true /\
  map Binary64.alphaBar
      (Binary64.evaluate (Binary64.betas_LINEAR 1e-18 1e-17 2)) = [1; 1] /\
  map Binary64.alphaBar
      (Binary64.evaluate (Binary64.betas_LINEAR 1e-17 1.2e-16 2))
  = [1; 0.99999999999999989] /\
  map Binary64.log10_argument
      (Binary64.evaluate (Binary64.betas_LINEAR 1e-17 1.2e-16 2))
  = [1e12; 9007199254740991].
Proof. repeat split; vm_compute; reflexivity. Qed.

End LinearRun.

(** C6, amended: in exact arithmetic (the rounding and the underflow of
    the code's doubles aside), for the LINEAR family with
    [0 < betaStart < betaEnd < 1] (and a step count that is an array
    length), [alphaBar] is strictly decreasing in [t]; [snrDb] is
    non-increasing in [t], and strictly smaller at a later step than at an
    earlier one whose [snr] exceeds [1e-20]. *)
Theorem linear_schedule_decays (bs be nt : R) :
  0 < bs -> bs < be -> be < 1 ->
  (steps nt <= 4294967295)%Z ->
  exists records : list TimestepData,
    calculateSchedule (mkParams bs be nt LINEAR) = Return records /\
    StronglySorted Rgt (map alphaBar records) /\
    StronglySorted Rge (map snrDb records) /\
    StronglySorted
      (fun r1 r2 => 1e-20 < snr r1 -> snrDb r2 < snrDb r1) records.
Proof.
  intros H0 Hlt H1 Hn. pose proof (steps_pos nt) as Hpos.
  eexists. split.
  { apply calculateSchedule_ok. simpl. unfold max_array_length. lia. }
  unfold betas_values. cbn [numTimesteps schedule betaStart betaEnd].
  assert (Hd : StronglySorted decays
                 (evaluate (linspace_values bs be (steps nt)))).
  { apply evaluate_decays, linear_betas_in_unit; [assumption | lra | lra]. }
  split; [| split].
  - apply StronglySorted_map.
    eapply StronglySorted_impl; [| exact Hd].
    intros x y [Hab _]. exact Hab.
  - apply StronglySorted_map.
    eapply StronglySorted_impl; [| exact Hd].
    intros x y [_ [Hle _]]. now apply Rle_ge.
  - eapply StronglySorted_impl; [| exact Hd].
    intros x y [_ [_ Hst]]. exact Hst.
Qed.

Lemma linear_schedule_decays_witness :
  0 < 0.1 /\ 0.1 < 0.3 /\ 0.3 < 1 /\ (steps 2 <= 4294967295)%Z /\
  exists records : list TimestepData,
    calculateSchedule (mkParams 0.1 0.3 2 LINEAR) = Return records /\
    StronglySorted Rgt (map alphaBar records) /\
    StronglySorted Rge (map snrDb records) /\
    StronglySorted
      (fun r1 r2 => 1e-20 < snr r1 -> snrDb r2 < snrDb r1) records.
Proof.
  assert (H0 : 0 < 0.1) by lra.
  assert (H1 : 0.1 < 0.3) by lra.
  assert (H2 : 0.3 < 1) by lra.
  assert (H3 : (steps 2 <= 4294967295)%Z) by (rewrite steps_IZR; lia).
  repeat (split; [assumption |]).
  exact (linear_schedule_decays 0.1 0.3 2 H0 H1 H2 H3).
Defined.

(** ** The terminal alphaBar as a function of betaEnd *)

Lemma fold_product_lt (f1 f2 : nat -> R) n : forall a s1 s2,
  (forall i, (a <= i)%nat -> (i < a + n)%nat -> 0 < f2 i <= f1 i) ->
  0 < s2 -> s2 < s1 ->
  0 < fold_left Rmult (map f2 (seq a n)) s2
  /\ fold_left Rmult (map f2 (seq a n)) s2
     < fold_left Rmult (map f1 (seq a n)) s1.
Proof.
  induction n as [| n IH]; intros a s1 s2 Hf H0 Hlt; simpl; [lra |].
  assert (Ha : 0 < f2 a <= f1 a) by (apply Hf; lia).
  apply IH.
  - intros i Hi1 Hi2. apply Hf; lia.
  - apply Rmult_lt_0_compat; lra.
  - apply Rle_lt_trans with (s2 * f1 a).
    + apply Rmult_le_compat_l; lra.
    + apply Rmult_lt_compat_r; lra.
Qed.

Lemma alpha_product_range betas : forall seed,
  Forall (fun b => 0 < b < 1) betas -> 0 < seed -> betas <> [] ->
  0 < alpha_product seed betas < seed.
Proof.
  unfold alpha_product.
  induction betas as [| b rest IH]; intros seed Hb Hs Hne; [congruence |].
  inversion Hb as [| ? ? Hb0 Hrest]; subst. simpl.
  assert (Hs' : 0 < seed * (1 - b) < seed) by nra.
  destruct rest as [| b' rest'].
  - simpl. lra.
  - specialize (IH (seed * (1 - b)) Hrest ltac:(lra) ltac:(discriminate)).
    lra.
Qed.

Lemma alpha_product_linear bs be k :
  (2 <= k)%Z ->
  alpha_product 1 (linspace_values bs be k)
  = fold_left Rmult (map (linear_alpha bs be k) (seq 0 (Z.to_nat k))) 1.
Proof.
  intros Hk. unfold alpha_product, linspace_values.
  assert (Hb : (k <? 2)%Z = false) by now apply Z.ltb_ge.
  rewrite Hb, map_map. reflexivity.
Qed.

Lemma linear_alpha_pos bs be k i :
  (2 <= k)%Z -> (i < Z.to_nat k)%nat -> 0 < bs < 1 -> 0 < be < 1 ->
  0 < linear_alpha bs be k i.
Proof.
  intros Hk Hi Hs He.
  pose proof (linear_betas_in_unit bs be k ltac:(lia) Hs He) as H.
  unfold linspace_values in H.
  assert (Hb : (k <? 2)%Z = false) by now apply Z.ltb_ge.
  rewrite Hb, Forall_map, Forall_forall in H.
  specialize (H i ltac:(apply in_seq; lia)). unfold linear_alpha. lra.
Qed.

Lemma linear_alpha_le bs be1 be2 k i :
  (2 <= k)%Z -> be1 <= be2 ->
  linear_alpha bs be2 k i <= linear_alpha bs be1 k i.
Proof.
  intros Hk Hbe. unfold linear_alpha.
  assert (Hk2 : 2 <= IZR k) by now apply IZR_le.
  assert (Hi : 0 <= INR i) by apply pos_INR.
  assert (Hinv : 0 < / (IZR k - 1)) by (apply Rinv_0_lt_compat; lra).
  unfold Rdiv.
  assert (H : (be1 - bs) * / (IZR k - 1) * INR i
              <= (be2 - bs) * / (IZR k - 1) * INR i).
  { apply Rmult_le_compat_r; [assumption |].
    apply Rmult_le_compat_r; lra. }
  lra.
Qed.

Lemma linear_alpha_lt_at_1 bs be1 be2 k :
  (2 <= k)%Z -> be1 < be2 ->
  linear_alpha bs be2 k 1 < linear_alpha bs be1 k 1.
Proof.
  intros Hk Hbe. unfold linear_alpha.
  assert (Hk2 : 2 <= IZR k) by now apply IZR_le.
  assert (Hinv : 0 < / (IZR k - 1)) by (apply Rinv_0_lt_compat; lra).
  unfold Rdiv. simpl INR. rewrite !Rmult_1_r.
  assert (H : (be1 - bs) * / (IZR k - 1) < (be2 - bs) * / (IZR k - 1)).
  { apply Rmult_lt_compat_r; lra. }
  lra.
Qed.

Lemma linear_alpha_at_0 bs be k : linear_alpha bs be k 0 = 1 - bs.
Proof. unfold linear_alpha. simpl INR. lra. Qed.

(** With at least two steps, a larger [betaEnd] leaves strictly less
    signal at the last step. *)
Lemma alpha_product_linear_lt bs be1 be2 k :
  (2 <= k)%Z -> 0 < bs < 1 -> 0 < be1 -> be1 < be2 -> be2 < 1 ->
  0 < alpha_product 1 (linspace_values bs be2 k)
  /\ alpha_product 1 (linspace_values bs be2 k)
     < alpha_product 1 (linspace_values bs be1 k).
Proof.
  intros Hk Hs H1 Hlt H2. rewrite !alpha_product_linear by assumption.
  destruct (Z.to_nat k) as [| [| m]] eqn:E; [lia | lia |].
  cbn [seq map fold_left].
  assert (Hp1 : 0 < linear_alpha bs be2 k 1)
    by (apply linear_alpha_pos; [assumption | lia | lra | lra]).
  pose proof (linear_alpha_lt_at_1 bs be1 be2 k Hk Hlt) as Hs1.
  rewrite !linear_alpha_at_0.
  apply fold_product_lt.
  - intros i Hi1 Hi2. split.
    + apply linear_alpha_pos; [assumption | lia | lra | lra].
    + apply linear_alpha_le; [assumption | lra].
  - apply Rmult_lt_0_compat; lra.
  - apply Rmult_lt_compat_l; lra.
Qed.

Lemma alpha_product_linear_range bs be k :
  (1 <= k)%Z -> 0 < bs < 1 -> 0 < be < 1 ->
  0 < alpha_product 1 (linspace_values bs be k) < 1.
Proof.
  intros Hk Hs He. apply alpha_product_range; [| lra |].
  - now apply linear_betas_in_unit.
  - intros H. apply (f_equal (@length R)) in H.
    rewrite linspace_values_length in H by assumption. simpl in H. lia.
Qed.

(** ** The terminal snrDb of a LINEAR schedule as a function of betaEnd *)

Lemma terminal_of_linear bs nt be :
  terminal_of bs nt LINEAR be
  = decibels (snr_of (alpha_product 1 (linspace_values bs be (steps nt)))).
Proof. reflexivity. Qed.

Lemma decibels_above_floor x : -200 < decibels x -> 1e-20 < x.
Proof.
  intros H. apply Rnot_le_lt. intros Hx.
  rewrite decibels_clamped in H by assumption. lra.
Qed.

Lemma terminal_of_linear_le bs nt be1 be2 :
  (2 <= steps nt)%Z -> 0 < bs < 1 -> 0 < be1 -> be1 <= be2 -> be2 < 1 ->
  terminal_of bs nt LINEAR be2 <= terminal_of bs nt LINEAR be1.
Proof.
  intros Hk Hs H1 [Hlt | ->] H2; [| lra].
  rewrite !terminal_of_linear. apply decibels_le. left.
  pose proof (alpha_product_linear_lt bs be1 be2 _ Hk Hs H1 Hlt H2) as [Hp Hl].
  pose proof (alpha_product_linear_range bs be1 (steps nt) ltac:(lia) Hs
                ltac:(lra)) as Hr.
  apply snr_of_lt; lra.
Qed.

Lemma terminal_of_linear_lt bs nt be1 be2 :
  (2 <= steps nt)%Z -> 0 < bs < 1 -> 0 < be1 -> be1 < be2 -> be2 < 1 ->
  -200 < terminal_of bs nt LINEAR be2 ->
  terminal_of bs nt LINEAR be2 < terminal_of bs nt LINEAR be1.
Proof.
  intros Hk Hs H1 Hlt H2 Hfloor.
  rewrite !terminal_of_linear in *.
  apply decibels_above_floor in Hfloor.
  pose proof (alpha_product_linear_lt bs be1 be2 _ Hk Hs H1 Hlt H2) as [Hp Hl].
  pose proof (alpha_product_linear_range bs be1 (steps nt) ltac:(lia) Hs
                ltac:(lra)) as Hr.
  assert (Hsnr : snr_of (alpha_product 1 (linspace_values bs be2 (steps nt)))
                 < snr_of (alpha_product 1 (linspace_values bs be1 (steps nt))))
    by (apply snr_of_lt; lra).
  apply decibels_lt; lra.
Qed.

(** With a single step the LINEAR schedule does not depend on [betaEnd]. *)
Lemma terminal_of_linear_single bs be :
  terminal_of bs 1 LINEAR be = terminal_snrDb [bs].
Proof.
  unfold terminal_of, betas_values.
  cbn [numTimesteps schedule betaStart betaEnd]. now rewrite steps_one.
Qed.

(** ** C8: solving for the betaEnd of a known schedule *)

(** C8, as stated, fails: with one step the LINEAR schedule is
    [[betaStart]] whatever [betaEnd] is.  For the schedule of
    [betaStart = 0.0001], [betaEnd = 0.5], [numTimesteps = 1] and the target
    [s] read from its last record, every bisection step sees a terminal
    [snrDb] equal to [s], so [high] moves every time and the solver returns
    [1e-7 + (0.999 - 1e-7) / 2^40], nowhere near [0.5]. *)
Lemma solver_single_step_misses_betaEnd :
  exists s high : R,
    (exists data : list TimestepData,
       calculateSchedule (mkParams 0.0001 0.5 1 LINEAR) = Return data /\
       final_snrDb data = Return s) /\
    solveBetaEndForSNR s 0.0001 1 LINEAR = Return high /\
    high = 1e-7 + (0.999 - 1e-7) / 2 ^ 40 /\
    ~ Rabs (high - 0.5) <= 1e-6.
Proof.
  assert (Hn : (steps 1 <= max_array_length)%Z)
    by (rewrite steps_one; unfold max_array_length; lia).
  exists (terminal_of 0.0001 1 LINEAR 0.5).
  exists (1e-7 + (0.999 - 1e-7) / 2 ^ 40).
  split; [| split; [| split]].
  - eexists. split.
    + now apply calculateSchedule_ok.
    + apply final_snrDb_schedule.
  - unfold solveBetaEndForSNR. rewrite bisect_iter by assumption.
    rewrite bisection_flat.
    + reflexivity.
    + intros mid. rewrite !terminal_of_linear_single. unfold Rgt. lra.
  - reflexivity.
  - unfold Rabs. destruct (Rcase_abs _); lra.
Qed.

Lemma snr_of_ge x : 0 < x -> x < 1 -> x <= snr_of x.
Proof.
  intros H0 H1. unfold snr_of. rewrite or_else_nonzero by lra.
  apply Rmult_le_reg_r with (1 - x); [lra |].
  unfold Rdiv. rewrite Rmult_assoc, Rinv_l by lra. nra.
Qed.

Lemma decibels_unclamped x : 1e-20 < x -> -200 < decibels x.
Proof.
  intros Hx. rewrite <- (decibels_clamped 1e-20) by lra.
  apply decibels_lt; assumption.
Qed.

(** C8, amended: for the LINEAR family with at least two steps (and a step
    count that is an array length), [0 < betaStart < 1], a [betaEnd] in
    [1e-7, 0.999] and a terminal [snrDb] above the floor [-200], solving for
    the terminal [snrDb] of that schedule returns a value within [1e-6] of
    [betaEnd]. *)
Theorem solver_round_trip_linear (bs be0 nt : R) :
  (2 <= steps nt)%Z -> (steps nt <= 4294967295)%Z ->
  0 < bs -> bs < 1 -> 1e-7 <= be0 -> be0 <= 0.999 ->
  -200 < terminal_of bs nt LINEAR be0 ->
  (exists data : list TimestepData,
     calculateSchedule (mkParams bs be0 nt LINEAR) = Return data /\
     final_snrDb data = Return (terminal_of bs nt LINEAR be0)) /\
  exists high : R,
    solveBetaEndForSNR (terminal_of bs nt LINEAR be0) bs nt LINEAR
    = Return high /\
    Rabs (high - be0) < 1e-6.
Proof.
  intros Hk2 Hn Hs0 Hs1 Hlo Hhi Hfloor.
  assert (Hmax : (steps nt <= max_array_length)%Z)
    by (unfold max_array_length; lia).
  split.
  { eexists. split.
    - now apply calculateSchedule_ok.
    - apply final_snrDb_schedule. }
  eexists. split.
  { unfold solveBetaEndForSNR. rewrite bisect_iter by assumption.
    reflexivity. }
  pose proof (bisection_keeps_root (terminal_of bs nt LINEAR)
                (terminal_of bs nt LINEAR be0) be0 0.0000001 0.999) as H.
  assert (Hroot :
    let lh := Nat.iter 40
                (bisection_step (terminal_of bs nt LINEAR)
                   (terminal_of bs nt LINEAR be0)) (0.0000001, 0.999) in
    0.0000001 <= fst lh /\ fst lh <= be0 /\ be0 <= snd lh /\
    snd lh <= 0.999 /\ snd lh - fst lh = (0.999 - 0.0000001) / 2 ^ 40).
  { apply H.
    - intros mid Hmid Hlt.
      apply terminal_of_linear_lt; try assumption; lra.
    - intros mid Hmid Hge Hgt.
      pose proof (terminal_of_linear_le bs nt be0 mid Hk2 ltac:(lra)
                    ltac:(lra) Hge ltac:(lra)).
      unfold Rgt in Hgt. lra.
    - lra.
    - lra. }
  cbv zeta in Hroot. destruct Hroot as [_ [Hl [Hh [_ Hw]]]].
  unfold Rabs. destruct (Rcase_abs _); lra.
Qed.

Lemma steps_two : steps 2 = 2%Z.
Proof. apply steps_IZR. lia. Qed.

Lemma solver_round_trip_linear_witness :
  (2 <= steps 2)%Z /\ (steps 2 <= 4294967295)%Z /\
  0 < 0.1 /\ 0.1 < 1 /\ 1e-7 <= 0.3 /\ 0.3 <= 0.999 /\
  -200 < terminal_of 0.1 2 LINEAR 0.3 /\
  exists high : R,
    solveBetaEndForSNR (terminal_of 0.1 2 LINEAR 0.3) 0.1 2 LINEAR
    = Return high /\
    Rabs (high - 0.3) < 1e-6.
Proof.
  assert (H1 : (2 <= steps 2)%Z) by (rewrite steps_two; lia).
  assert (H2 : (steps 2 <= 4294967295)%Z) by (rewrite steps_two; lia).
  assert (H3 : 0 < 0.1) by lra.
  assert (H4 : 0.1 < 1) by lra.
  assert (H5 : 1e-7 <= 0.3) by lra.
  assert (H6 : 0.3 <= 0.999) by lra.
  assert (H7 : -200 < terminal_of 0.1 2 LINEAR 0.3).
  { rewrite terminal_of_linear. apply decibels_unclamped.
    pose proof (alpha_product_linear_range 0.1 0.3 (steps 2)
                  ltac:(lia) ltac:(lra) ltac:(lra)) as Hr.
    apply Rlt_le_trans
      with (alpha_product 1 (linspace_values 0.1 0.3 (steps 2)));
      [| apply snr_of_ge; lra].
    rewrite steps_two. unfold alpha_product, linspace_values.
    simpl. lra. }
  repeat (split; [assumption |]).
  exact (proj2 (solver_round_trip_linear 0.1 0.3 2 H1 H2 H3 H4 H5 H6 H7)).
Defined.


(** * Worked examples

    The concrete cases the spec lists as testable properties, run through
    the embedding. *)

(** LINEAR, [betaStart = 0.1], [betaEnd = 0.3], two steps: betas
    [[0.1; 0.3]], alphas [[0.9; 0.7]], alphaBars [[0.9; 0.63]]. *)
Example linear_two_steps :
  exists records : list TimestepData,
    getBetas (mkParams 0.1 0.3 2 LINEAR) = Return [0.1; 0.3] /\
    calculateSchedule (mkParams 0.1 0.3 2 LINEAR) = Return records /\
    map t records = [1%Z; 2%Z] /\
    map alpha records = [0.9; 0.7] /\
    map alphaBar records = [0.9; 0.63].
Proof.
  assert (Hn : (steps 2 <= max_array_length)%Z)
    by (rewrite steps_two; unfold max_array_length; lia).
  assert (Hb : betas_values (mkParams 0.1 0.3 2 LINEAR) = [0.1; 0.3]).
  { unfold betas_values. cbn [numTimesteps schedule betaStart betaEnd].
    rewrite steps_two. unfold linspace_values. simpl.
    repeat (f_equal; try lra). }
  eexists. rewrite calculateSchedule_ok, getBetas_ok, Hb by assumption.
  split; [reflexivity |]. split; [reflexivity |].
  rewrite evaluate_records. simpl.
  split; [reflexivity |]. split; repeat (f_equal; try lra).
Qed.

(** CONST, [betaEnd = 0.05], five steps: five times [0.05], whatever
    [betaStart]. *)
Example const_five_steps (bs : R) :
  getBetas (mkParams bs 0.05 5 CONST) = Return [0.05; 0.05; 0.05; 0.05; 0.05].
Proof.
  assert (H5 : steps 5 = 5%Z) by (apply steps_IZR; lia).
  rewrite getBetas_ok
    by (simpl; rewrite H5; unfold max_array_length; lia).
  unfold betas_values. cbn [numTimesteps schedule betaStart betaEnd].
  now rewrite H5.
Qed.

(** A beta of zero leaves [alphaBar = 1] and [oneMinusAlphaBar = 0]: the
    denominator becomes [1e-12] and [snr = 1e12]. *)
Example zero_beta_uses_denominator_floor :
  exists r : TimestepData,
    evaluate [0] = [r] /\
    alphaBar r = 1 /\ oneMinusAlphaBar r = 0 /\ snr r = 1 / 1e-12.
Proof.
  eexists. rewrite evaluate_single. split; [reflexivity |]. simpl.
  split; [lra |]. split; [lra |].
  unfold or_else. destruct (Req_dec_T (1 - (1 - 0)) 0) as [_ | Hne].
  - f_equal. lra.
  - exfalso. apply Hne. lra.
Qed.

(** A negative beta: [alphaBar = 2], [snr = -2], and [snrDb] sits on the
    floor. *)
Example negative_beta_hits_floor :
  exists r : TimestepData,
    evaluate [-1] = [r] /\
    alphaBar r = 2 /\ snr r = -2 /\ snrDb r = -200.
Proof.
  eexists. rewrite evaluate_single. split; [reflexivity |].
  assert (Hsnr : snr (record_at 0 (-1) (1 - -1)) = -2).
  { simpl. rewrite or_else_nonzero by lra. field. }
  split; [simpl; lra |]. split; [exact Hsnr |].
  rewrite record_at_snrDb, Hsnr. apply decibels_clamped. lra.
Qed.

(** * Further properties of the engine *)

(** ** How the engine ends: a value or a [RangeError] *)

(** X1: [getBetas] has two outcomes only: as many betas as the step count, or,
    exactly when the step count is above [2^32 - 1], a [RangeError]. *)
Theorem getBetas_outcome (params : DiffusionParams) :
  ((steps (numTimesteps params) <= 4294967295)%Z /\
   exists betas : list R,
     getBetas params = Return betas /\
     length betas = Z.to_nat (steps (numTimesteps params)))
  \/
  ((4294967295 < steps (numTimesteps params))%Z /\
   getBetas params = Throw RangeError).
Proof.
  destruct (Z_le_gt_dec (steps (numTimesteps params)) 4294967295) as [H | H].
  - left. split; [assumption |]. exists (betas_values params). split.
    + apply getBetas_ok. unfold max_array_length. lia.
    + apply betas_values_length.
  - right. split; [lia |].
    apply getBetas_throw. unfold max_array_length. lia.
Qed.

Lemma bisect_throw target bs nt family iters low high :
  (max_array_length < steps nt)%Z ->
  bisect target bs nt family (S iters) low high = Throw RangeError.
Proof.
  intros Hn. cbn [bisect].
  now rewrite calculateSchedule_throw by assumption.
Qed.

(** C3, as stated, fails: with [numTimesteps = 2^32] the schedule cannot
    be built, [calculateSchedule] throws a [RangeError] in the first turn of
    the loop, and [solveBetaEndForSNR] neither performs 40 iterations nor
    returns a value. *)
Lemma solver_large_count_throws :
  steps 4294967296 = 4294967296%Z /\
  solveBetaEndForSNR 0 0.0001 4294967296 LINEAR = Throw RangeError.
Proof.
  assert (H : steps 4294967296 = 4294967296%Z) by (apply steps_IZR; lia).
  split; [exact H |]. unfold solveBetaEndForSNR.
  apply bisect_throw. rewrite H. unfold max_array_length. lia.
Qed.

(** X2: For finite arguments (a [numTimesteps] that is a number, not [NaN]),
    [solveBetaEndForSNR] returns an estimate in (1e-7, 0.999], or throws a
    [RangeError], the latter exactly when the step count is above
    [2^32 - 1]; the [TypeError] of [data[data.length - 1].snrDb] does not
    happen then, the schedule of a finite [numTimesteps] being never
    empty. *)
Theorem solveBetaEndForSNR_outcome (target bs nt : R)
  (family : ScheduleType) :
  ((steps nt <= 4294967295)%Z /\
   exists high : R,
     solveBetaEndForSNR target bs nt family = Return high /\
     1e-7 < high <= 0.999)
  \/
  ((4294967295 < steps nt)%Z /\
   solveBetaEndForSNR target bs nt family = Throw RangeError).
Proof.
  destruct (Z_le_gt_dec (steps nt) 4294967295) as [H | H].
  - left. split; [assumption |]. eexists. split.
    + unfold solveBetaEndForSNR.
      apply bisect_iter. unfold max_array_length. lia.
    + pose proof (bisection_bracket (terminal_of bs nt family) target 40
                    0.0000001 0.999 ltac:(lra)) as Hb.
      cbv zeta in Hb. lra.
  - right. split; [lia |]. unfold solveBetaEndForSNR.
    apply bisect_throw. unfold max_array_length. lia.
Qed.

(** ** Targets the search cannot bracket *)

(** When [f] always exceeds the target, [low] alone moves. *)
Lemma bisection_all_above (f : R -> R) (target low0 high0 : R) :
  (forall mid, f mid > target) ->
  forall iters,
    Nat.iter iters (bisection_step f target) (low0, high0)
    = (high0 - (high0 - low0) / 2 ^ iters, high0).
Proof.
  intros Habove. induction iters as [| k IH]; simpl.
  - f_equal. lra.
  - rewrite IH. unfold bisection_step. cbn [fst snd].
    destruct (Rgt_dec _ target) as [_ | Hn]; [| exfalso; apply Hn, Habove].
    assert (Hpow : 0 < 2 ^ k) by (apply pow_lt; lra).
    f_equal. field. lra.
Qed.

Lemma terminal_of_floor bs nt family be : -200 <= terminal_of bs nt family be.
Proof. apply decibels_floor. Qed.

Section NegativeStart.

Import PrimFloat.
Local Open Scope float_scope.
#[local] Set Warnings "-inexact-float".

(** Why the statements on the solver below take [betaStart] in (0,1): in
    the code's doubles, QUAD with a negative [betaStart] interpolates from
    [Math.sqrt(betaStart) = NaN], every beta is [NaN] and so is the
    argument of every logarithm; the comparison [finalSnrDb > targetSnrDb]
    is then false at every turn. *)
Lemma quad_negative_betaStart_is_nan :
  Binary64.betas_QUAD (-0.25) 0.25 2 = [nan; nan] /\
  map Binary64.log10_argument
      (Binary64.evaluate (Binary64.betas_QUAD (-0.25) 0.25 2)) = [nan; nan].
Proof. split; vm_compute; reflexivity. Qed.

End NegativeStart.

(** X3: For [betaStart] in (0,1), a target below the floor of [snrDb] is
    exceeded by every schedule: [high] never moves and the solver returns
    its initial [0.999], for every family.  (The bounds on [betaStart]
    keep every number of the run finite: QUAD takes its square root.) *)
Theorem solver_target_below_floor (target bs nt : R) (family : ScheduleType) :
  (steps nt <= 4294967295)%Z ->
  0 < bs < 1 ->
  target < -200 ->
  solveBetaEndForSNR target bs nt family = Return 0.999.
Proof.
  intros Hn _ Ht. unfold solveBetaEndForSNR.
  rewrite bisect_iter by (unfold max_array_length; lia).
  rewrite bisection_all_above; [reflexivity |].
  intros mid. pose proof (terminal_of_floor bs nt family mid). unfold Rgt. lra.
Qed.

Lemma solver_target_below_floor_witness :
  (steps 100 <= 4294967295)%Z /\ 0 < 0.0001 < 1 /\ -250 < -200 /\
  solveBetaEndForSNR (-250) 0.0001 100 EXP = Return 0.999.
Proof.
  assert (H1 : (steps 100 <= 4294967295)%Z) by (rewrite steps_IZR; lia).
  assert (Hb : 0 < 0.0001 < 1) by lra.
  assert (H2 : -250 < -200) by lra.
  split; [exact H1 |]. split; [exact Hb |]. split; [exact H2 |].
  exact (solver_target_below_floor (-250) 0.0001 100 EXP H1 Hb H2).
Defined.

(** With one step, the families that interpolate from [betaStart] produce
    [[f betaStart]] whatever [betaEnd] is. *)
Lemma betas_values_single_start bs be be' nt family :
  steps nt = 1%Z -> family <> CONST -> family <> RECIP ->
  betas_values (mkParams bs be nt family)
  = betas_values (mkParams bs be' nt family).
Proof.
  intros H1 Hc Hr. unfold betas_values.
  cbn [numTimesteps schedule betaStart betaEnd]. rewrite H1.
  destruct family; try reflexivity; congruence.
Qed.

(** X4: With a single step, a family other than CONST and RECIP and
    [betaStart] in (0,1), the schedule does not depend on [betaEnd], and
    the solver has two possible answers: [0.999], or a value no more than
    [1e-12] above [1e-7].  In exact arithmetic the first is returned when
    the target is below the terminal [snrDb] of that one schedule, and the
    second is [1e-7 + (0.999 - 1e-7) / 2^40]. *)
Theorem solver_single_step (target bs be nt : R) (family : ScheduleType) :
  steps nt = 1%Z -> family <> CONST -> family <> RECIP ->
  0 < bs < 1 ->
  (forall be' : R,
     calculateSchedule (mkParams bs be' nt family)
     = calculateSchedule (mkParams bs be nt family)) /\
  (exists high : R,
     solveBetaEndForSNR target bs nt family = Return high /\
     (high = 0.999 \/ 1e-7 < high <= 1e-7 + 1e-12)) /\
  (target < terminal_of bs nt family be ->
   solveBetaEndForSNR target bs nt family = Return 0.999) /\
  (terminal_of bs nt family be <= target ->
   solveBetaEndForSNR target bs nt family
   = Return (1e-7 + (0.999 - 1e-7) / 2 ^ 40)).
Proof.
  intros H1 Hc Hr _.
  assert (Hn : (steps nt <= max_array_length)%Z)
    by (rewrite H1; unfold max_array_length; lia).
  assert (Hflat : forall mid,
            terminal_of bs nt family mid = terminal_of bs nt family be).
  { intros mid. unfold terminal_of.
    now rewrite (betas_values_single_start bs mid be nt family). }
  assert (Habove : target < terminal_of bs nt family be ->
            solveBetaEndForSNR target bs nt family = Return 0.999).
  { intros Ht. unfold solveBetaEndForSNR. rewrite bisect_iter by assumption.
    rewrite bisection_all_above; [reflexivity |].
    intros mid. rewrite Hflat. exact Ht. }
  assert (Hbelow : terminal_of bs nt family be <= target ->
            solveBetaEndForSNR target bs nt family
            = Return (1e-7 + (0.999 - 1e-7) / 2 ^ 40)).
  { intros Ht. unfold solveBetaEndForSNR. rewrite bisect_iter by assumption.
    rewrite bisection_flat; [reflexivity |].
    intros mid. rewrite Hflat. unfold Rgt. lra. }
  split; [| split; [| split]].
  - intros be'. rewrite !calculateSchedule_ok by assumption.
    now rewrite (betas_values_single_start bs be' be nt family).
  - destruct (Rlt_dec target (terminal_of bs nt family be)) as [Ht | Ht].
    + exists 0.999. split; [now apply Habove | now left].
    + exists (1e-7 + (0.999 - 1e-7) / 2 ^ 40).
      split; [apply Hbelow; lra |]. right.
      replace (2 ^ 40) with 1099511627776 by (simpl; lra). lra.
  - exact Habove.
  - exact Hbelow.
Qed.

Lemma solver_single_step_witness :
  steps 1 = 1%Z /\ QUAD <> CONST /\ QUAD <> RECIP /\ 0 < 0.0001 < 1 /\
  (forall be' : R,
     calculateSchedule (mkParams 0.0001 be' 1 QUAD)
     = calculateSchedule (mkParams 0.0001 0.02 1 QUAD)) /\
  (exists high : R,
     solveBetaEndForSNR 0 0.0001 1 QUAD = Return high /\
     (high = 0.999 \/ 1e-7 < high <= 1e-7 + 1e-12)).
Proof.
  assert (H1 : steps 1 = 1%Z) by apply steps_one.
  assert (H2 : QUAD <> CONST) by discriminate.
  assert (H3 : QUAD <> RECIP) by discriminate.
  assert (Hb : 0 < 0.0001 < 1) by lra.
  split; [exact H1 |]. split; [exact H2 |]. split; [exact H3 |].
  split; [exact Hb |].
  pose proof (solver_single_step 0 0.0001 0.02 1 QUAD H1 H2 H3 Hb) as H.
  split; [exact (proj1 H) | exact (proj1 (proj2 H))].
Defined.

(** ** linspace, index by index *)

Lemma linspace_values_at start end_ k :
  (2 <= k)%Z ->
  linspace_values start end_ k
  = map (linspace_at start end_ k) (seq 0 (Z.to_nat k)).
Proof.
  intros Hk. unfold linspace_values.
  assert (Hb : (k <? 2)%Z = false) by now apply Z.ltb_ge.
  now rewrite Hb.
Qed.

Lemma linspace_at_first start end_ k : linspace_at start end_ k 0 = start.
Proof. unfold linspace_at. simpl INR. lra. Qed.

Lemma linspace_at_last start end_ k :
  (2 <= k)%Z -> linspace_at start end_ k (Z.to_nat k - 1) = end_.
Proof.
  intros Hk. unfold linspace_at.
  assert (HI : INR (Z.to_nat k - 1) = IZR k - 1).
  { rewrite minus_INR by lia. rewrite INR_IZR_INZ, Z2Nat.id by lia.
    simpl. lra. }
  rewrite HI. assert (Hk2 : 2 <= IZR k) by now apply IZR_le.
  field. lra.
Qed.

Lemma linspace_at_between lo hi start end_ k i :
  (2 <= k)%Z -> (i < Z.to_nat k)%nat ->
  lo <= start <= hi -> lo <= end_ <= hi ->
  lo <= linspace_at start end_ k i <= hi.
Proof.
  intros Hk Hi Hs He.
  pose proof (linspace_values_between lo hi start end_ k ltac:(lia) Hs He)
    as H.
  rewrite linspace_values_at, Forall_map, Forall_forall in H by assumption.
  apply H, in_seq. lia.
Qed.

Lemma linspace_at_step_pos k : (2 <= k)%Z -> 0 < / (IZR k - 1).
Proof.
  intros Hk. assert (Hk2 : 2 <= IZR k) by now apply IZR_le.
  apply Rinv_0_lt_compat. lra.
Qed.

(** A larger end raises every value but the first. *)
Lemma linspace_at_le_end start e1 e2 k i :
  (2 <= k)%Z -> e1 <= e2 ->
  linspace_at start e1 k i <= linspace_at start e2 k i.
Proof.
  intros Hk He. unfold linspace_at, Rdiv.
  pose proof (linspace_at_step_pos k Hk) as Hinv.
  pose proof (pos_INR i) as Hi.
  assert (H : (e1 - start) * / (IZR k - 1) * INR i
              <= (e2 - start) * / (IZR k - 1) * INR i).
  { apply Rmult_le_compat_r; [assumption |].
    apply Rmult_le_compat_r; lra. }
  lra.
Qed.

Lemma linspace_at_lt_end start e1 e2 k i :
  (2 <= k)%Z -> (0 < i)%nat -> e1 < e2 ->
  linspace_at start e1 k i < linspace_at start e2 k i.
Proof.
  intros Hk Hi He. unfold linspace_at, Rdiv.
  pose proof (linspace_at_step_pos k Hk) as Hinv.
  assert (Hi' : 0 < INR i) by (apply lt_0_INR; lia).
  assert (H : (e1 - start) * / (IZR k - 1) * INR i
              < (e2 - start) * / (IZR k - 1) * INR i).
  { apply Rmult_lt_compat_r; [assumption |].
    apply Rmult_lt_compat_r; lra. }
  lra.
Qed.

(** From a smaller start to a larger end the values increase with the
    index. *)
Lemma linspace_at_lt_index start end_ k i j :
  (2 <= k)%Z -> start < end_ -> (i < j)%nat ->
  linspace_at start end_ k i < linspace_at start end_ k j.
Proof.
  intros Hk Hse Hij. unfold linspace_at, Rdiv.
  pose proof (linspace_at_step_pos k Hk) as Hinv.
  apply lt_INR in Hij.
  assert (Hstep : 0 < (end_ - start) * / (IZR k - 1))
    by (apply Rmult_lt_0_compat; lra).
  assert (H : (end_ - start) * / (IZR k - 1) * INR i
              < (end_ - start) * / (IZR k - 1) * INR j)
    by (apply Rmult_lt_compat_l; assumption).
  lra.
Qed.

(** ** Products of positive factors *)

Lemma fold_product_strict (f1 f2 : nat -> R) n : forall a s1 s2,
  (forall i, (a <= i)%nat -> (i < a + n)%nat -> 0 < f2 i <= f1 i) ->
  0 < s2 -> s2 <= s1 ->
  (exists j, (a <= j)%nat /\ (j < a + n)%nat /\ f2 j < f1 j) ->
  0 < fold_left Rmult (map f2 (seq a n)) s2
  /\ fold_left Rmult (map f2 (seq a n)) s2
     < fold_left Rmult (map f1 (seq a n)) s1.
Proof.
  induction n as [| n IH]; intros a s1 s2 Hf H0 Hle [j [Hj1 [Hj2 Hj]]];
    [lia |].
  assert (Ha : 0 < f2 a <= f1 a) by (apply Hf; lia).
  cbn [seq map fold_left].
  destruct (Nat.eq_dec j a) as [-> | Hne].
  - apply fold_product_lt.
    + intros i Hi1 Hi2. apply Hf; lia.
    + apply Rmult_lt_0_compat; lra.
    + apply Rlt_le_trans with (s2 * f1 a).
      * apply Rmult_lt_compat_l; lra.
      * apply Rmult_le_compat_r; lra.
  - apply IH.
    + intros i Hi1 Hi2. apply Hf; lia.
    + apply Rmult_lt_0_compat; lra.
    + apply Rmult_le_compat; lra.
    + exists j. repeat split; (lia || assumption).
Qed.

Lemma alpha_product_map (g : nat -> R) l seed :
  alpha_product seed (map g l)
  = fold_left Rmult (map (fun i => 1 - g i) l) seed.
Proof. unfold alpha_product. now rewrite map_map. Qed.

(** ** Interpolation through a change of variable *)

Section Interpolated.

Variables pre post : R -> R.

Hypothesis pre_le :
  forall x y, 0 < x -> x <= y -> y < 1 -> pre x <= pre y.
Hypothesis pre_lt :
  forall x y, 1e-10 <= x -> x < y -> y < 1 -> pre x < pre y.
Hypothesis post_lt :
  forall x y u v, 0 < x -> x <= y -> y < 1 ->
                  pre x <= u -> u < v -> v <= pre y -> post u < post v.
Hypothesis post_pre_unit :
  forall x, 0 < x -> x < 1 -> 0 < post (pre x) < 1.

Lemma post_le x y u v :
  0 < x -> x <= y -> y < 1 ->
  pre x <= u -> u <= v -> v <= pre y -> post u <= post v.
Proof.
  intros Hx Hxy Hy Hu [Hlt | ->] Hv; [| lra].
  left. now apply (post_lt x y).
Qed.

Lemma interp_between a b bs be k :
  (1 <= k)%Z -> 0 < a -> a <= bs <= b -> a <= be <= b -> b < 1 ->
  Forall (fun v => post (pre a) <= v <= post (pre b))
         (map post (linspace_values (pre bs) (pre be) k)).
Proof.
  intros Hk Ha Hs He Hb.
  assert (Hin : Forall (fun v => pre a <= v <= pre b)
                  (linspace_values (pre bs) (pre be) k)).
  { apply linspace_values_between; [assumption | |];
      split; apply pre_le; lra. }
  rewrite Forall_map. eapply Forall_impl; [| exact Hin].
  simpl. intros v [Hv1 Hv2]. split.
  - apply (post_le a b); lra.
  - apply (post_le a b); lra.
Qed.

Lemma interp_unit bs be k :
  (1 <= k)%Z -> 0 < bs < 1 -> 0 < be < 1 ->
  Forall (fun v => 0 < v < 1)
         (map post (linspace_values (pre bs) (pre be) k)).
Proof.
  intros Hk Hs He.
  assert (Ha : 0 < Rmin bs be) by (apply Rmin_glb_lt; lra).
  assert (Hb : Rmax bs be < 1) by (apply Rmax_lub_lt; lra).
  pose proof (Rmin_l bs be). pose proof (Rmin_r bs be).
  pose proof (Rmax_l bs be). pose proof (Rmax_r bs be).
  pose proof (interp_between (Rmin bs be) (Rmax bs be) bs be k Hk Ha
                ltac:(lra) ltac:(lra) Hb) as Hbetween.
  pose proof (post_pre_unit (Rmin bs be) Ha ltac:(lra)).
  pose proof (post_pre_unit (Rmax bs be) ltac:(lra) Hb).
  eapply Forall_impl; [| exact Hbetween]. simpl. intros v Hv. lra.
Qed.

Lemma interp_sorted bs be k :
  (1 <= k)%Z -> 1e-10 <= bs -> bs < be -> be < 1 ->
  StronglySorted Rlt (map post (linspace_values (pre bs) (pre be) k)).
Proof.
  intros Hk Hs Hlt He.
  destruct (Z_lt_ge_dec k 2) as [Hk1 | Hk2].
  - unfold linspace_values.
    assert (Hb : (k <? 2)%Z = true) by now apply Z.ltb_lt.
    rewrite Hb. simpl. repeat constructor.
  - rewrite linspace_values_at, map_map by lia.
    apply StronglySorted_map_seq. intros i j _ Hij Hj.
    pose proof (pre_lt bs be Hs Hlt He) as Hpre.
    assert (Hbi : pre bs <= linspace_at (pre bs) (pre be) k i <= pre be)
      by (apply linspace_at_between; (lia || lra)).
    assert (Hbj : pre bs <= linspace_at (pre bs) (pre be) k j <= pre be)
      by (apply linspace_at_between; (lia || lra)).
    apply (post_lt bs be); try lra.
    apply linspace_at_lt_index; (lia || assumption).
Qed.

Lemma interp_product_lt bs be1 be2 k :
  (2 <= k)%Z -> 0 < bs < 1 -> 1e-10 <= be1 -> be1 < be2 -> be2 < 1 ->
  0 < alpha_product 1 (map post (linspace_values (pre bs) (pre be2) k))
  /\ alpha_product 1 (map post (linspace_values (pre bs) (pre be2) k))
     < alpha_product 1 (map post (linspace_values (pre bs) (pre be1) k)).
Proof.
  intros Hk Hs H1 Hlt H2.
  rewrite !linspace_values_at, !map_map by assumption.
  rewrite !(alpha_product_map
              (fun i => post (linspace_at (pre bs) (pre _) k i))).
  set (a := Rmin bs be1). set (b := Rmax bs be2).
  assert (Ha : 0 < a) by (apply Rmin_glb_lt; lra).
  assert (Hb : b < 1) by (apply Rmax_lub_lt; lra).
  assert (Ha1 : a <= bs) by apply Rmin_l.
  assert (Ha2 : a <= be1) by apply Rmin_r.
  assert (Hb1 : bs <= b) by apply Rmax_l.
  assert (Hb2 : be2 <= b) by apply Rmax_r.
  assert (Hin : forall e i, a <= e <= b -> (i < Z.to_nat k)%nat ->
            pre a <= linspace_at (pre bs) (pre e) k i <= pre b).
  { intros e i He Hi. apply linspace_at_between; try assumption;
      split; apply pre_le; lra. }
  pose proof (post_pre_unit b ltac:(lra) Hb) as Hpb.
  pose proof (pre_lt be1 be2 H1 Hlt H2) as Hpre.
  apply fold_product_strict; try lra.
  - intros i _ Hi. simpl in Hi.
    pose proof (Hin be1 i ltac:(lra) Hi) as [Hl1 Hu1].
    pose proof (Hin be2 i ltac:(lra) Hi) as [Hl2 Hu2].
    assert (Hle : post (linspace_at (pre bs) (pre be1) k i)
                  <= post (linspace_at (pre bs) (pre be2) k i)).
    { apply (post_le a b); try lra.
      apply linspace_at_le_end; [assumption | lra]. }
    assert (Hub : post (linspace_at (pre bs) (pre be2) k i) <= post (pre b)).
    { apply (post_le a b); lra. }
    lra.
  - exists 1%nat. split; [lia |]. split; [simpl; lia |].
    pose proof (Hin be1 1%nat ltac:(lra) ltac:(lia)) as [Hl1 Hu1].
    pose proof (Hin be2 1%nat ltac:(lra) ltac:(lia)) as [Hl2 Hu2].
    assert (Hst : post (linspace_at (pre bs) (pre be1) k 1)
                  < post (linspace_at (pre bs) (pre be2) k 1)).
    { apply (post_lt a b); try lra.
      apply linspace_at_lt_end; (lia || assumption). }
    lra.
Qed.

End Interpolated.

Lemma interp_ends (post : R -> R) start end_ k :
  (2 <= k)%Z ->
  hd 0 (map post (linspace_values start end_ k)) = post start /\
  last (map post (linspace_values start end_ k)) 0 = post end_.
Proof.
  intros Hk. rewrite linspace_values_at, map_map by assumption.
  destruct (Z.to_nat k) as [| m] eqn:E; [lia |]. split.
  - simpl. now rewrite linspace_at_first.
  - rewrite last_map_seq.
    replace m with (Z.to_nat k - 1)%nat by lia.
    now rewrite linspace_at_last.
Qed.

(** ** The five interpolating families *)

Lemma betas_values_interp bs be nt family :
  interpolating family ->
  betas_values (mkParams bs be nt family)
  = map (family_post family)
        (linspace_values (family_pre family bs) (family_pre family be)
                         (steps nt)).
Proof.
  intros [Hc Hr]. unfold betas_values.
  cbn [numTimesteps schedule betaStart betaEnd].
  destruct family; try reflexivity; try congruence.
  now rewrite map_id.
Qed.

Lemma Math_log2_lt x y : 0 < x -> x < y -> Math_log2 x < Math_log2 y.
Proof.
  intros Hx Hxy. unfold Math_log2, Rdiv.
  apply Rmult_lt_compat_r; [apply Rinv_0_lt_compat, ln_2_pos |].
  now apply ln_increasing.
Qed.

Lemma Math_pow_2_lt x y : x < y -> Math_pow 2 x < Math_pow 2 y.
Proof. intros H. unfold Math_pow. apply Rpower_lt; lra. Qed.

Lemma Math_pow_2_pos x : 0 < Math_pow 2 x.
Proof. unfold Math_pow, Rpower. apply exp_pos. Qed.

Lemma family_pre_lt family x y :
  1e-10 <= x -> x < y -> y < 1 -> family_pre family x < family_pre family y.
Proof.
  intros Hx Hxy Hy. destruct family; simpl; try assumption.
  - apply sqrt_lt_1_alt. lra.
  - nra.
  - rewrite !Rmax_right by lra. apply Math_log2_lt; lra.
  - now apply Math_pow_2_lt.
Qed.

Lemma family_pre_le family x y :
  0 < x -> x <= y -> y < 1 -> family_pre family x <= family_pre family y.
Proof.
  intros Hx Hxy Hy. destruct family; simpl; try assumption.
  - now apply sqrt_le_1_alt.
  - nra.
  - assert (Hm : Rmax 1e-10 x <= Rmax 1e-10 y)
      by now apply Rle_max_compat_l.
    assert (Hp : 0 < Rmax 1e-10 x)
      by (pose proof (Rmax_l 1e-10 x); lra).
    destruct Hm as [Hm | Hm]; [| rewrite Hm; lra].
    left. now apply Math_log2_lt.
  - destruct Hxy as [Hxy | ->]; [| lra].
    left. now apply Math_pow_2_lt.
Qed.

Lemma family_post_lt family x y u v :
  0 < x -> x <= y -> y < 1 ->
  family_pre family x <= u -> u < v -> v <= family_pre family y ->
  family_post family u < family_post family v.
Proof.
  intros Hx Hxy Hy Hu Huv Hv. destruct family; simpl in *; try assumption.
  - pose proof (sqrt_pos x). nra.
  - apply sqrt_lt_1_alt. nra.
  - now apply Math_pow_2_lt.
  - apply Math_log2_lt; [| assumption].
    pose proof (Math_pow_2_pos x). unfold Math_pow in *. lra.
Qed.

Lemma family_post_pre family x :
  0 <= x ->
  family_post family (family_pre family x) = effective_bound family x.
Proof.
  intros Hx. destruct family; simpl; try reflexivity.
  - now apply sqrt_sqrt.
  - replace (x * (x * 1)) with (x ^ 2) by (simpl; ring).
    now apply sqrt_pow2.
  - apply Math_pow_log2. pose proof (Rmax_l 1e-10 x). lra.
  - apply Math_log2_pow.
Qed.

Lemma effective_bound_unit family x :
  0 < x -> x < 1 -> 0 < effective_bound family x < 1.
Proof.
  intros H0 H1. destruct family; simpl; try lra.
  split.
  - pose proof (Rmax_l 1e-10 x). lra.
  - apply Rmax_lub_lt; lra.
Qed.

Lemma family_post_pre_unit family x :
  0 < x -> x < 1 -> 0 < family_post family (family_pre family x) < 1.
Proof.
  intros H0 H1. rewrite family_post_pre by lra.
  now apply effective_bound_unit.
Qed.

Lemma effective_bound_le family x y :
  x <= y -> effective_bound family x <= effective_bound family y.
Proof.
  intros H. destruct family; simpl; try assumption.
  now apply Rle_max_compat_l.
Qed.

(** ** CONST and RECIP, index by index *)

Lemma const_betas_values bs be nt :
  betas_values (mkParams bs be nt CONST)
  = map (fun _ => be) (seq 0 (Z.to_nat (steps nt))).
Proof.
  unfold betas_values. cbn [numTimesteps schedule betaStart betaEnd].
  generalize (Z.to_nat (steps nt)). intros n. generalize 0%nat.
  induction n as [| n IH]; intros a; simpl; [| rewrite <- IH]; reflexivity.
Qed.

Lemma recip_betas_values bs be nt :
  betas_values (mkParams bs be nt RECIP)
  = map (fun i => be * (1 / (IZR (steps nt) - INR i)))
        (seq 0 (Z.to_nat (steps nt))).
Proof.
  unfold betas_values. cbn [numTimesteps schedule betaStart betaEnd].
  rewrite linspace_values_countdown by apply steps_pos.
  now rewrite map_map.
Qed.

Lemma recip_factor_range k i :
  (i < Z.to_nat k)%nat -> 0 < 1 / (IZR k - INR i) <= 1.
Proof.
  intros Hi. pose proof (INR_lt_steps k i Hi) as Hk.
  assert (Hd : 1 <= IZR k - INR i) by lra.
  unfold Rdiv. rewrite Rmult_1_l. split.
  - apply Rinv_0_lt_compat. lra.
  - rewrite <- Rinv_1. apply Rinv_le_contravar; lra.
Qed.

(** ** Every family, valid bounds *)

Lemma betas_values_unit bs be nt family :
  0 < bs < 1 -> 0 < be < 1 ->
  Forall (fun b => 0 < b < 1) (betas_values (mkParams bs be nt family)).
Proof.
  intros Hs He. pose proof (steps_pos nt) as Hpos.
  assert (Hint : interpolating family ->
            Forall (fun b => 0 < b < 1)
                   (betas_values (mkParams bs be nt family))).
  { intros Hi. rewrite betas_values_interp by assumption.
    apply interp_unit; try assumption.
    - apply family_pre_le.
    - apply family_post_lt.
    - apply family_post_pre_unit. }
  destruct family; try (apply Hint; split; discriminate).
  - rewrite const_betas_values, Forall_map, Forall_forall. intros; lra.
  - rewrite recip_betas_values, Forall_map, Forall_forall.
    intros i Hi. apply in_seq in Hi.
    pose proof (recip_factor_range (steps nt) i ltac:(lia)) as Hf.
    split; [apply Rmult_lt_0_compat; lra | nra].
Qed.

Lemma last_alphaBar_records betas : forall i ab d,
  betas <> [] ->
  last (map alphaBar (records_from betas i ab)) d = alpha_product ab betas.
Proof.
  induction betas as [| b rest IH]; intros i ab d Hne; [congruence |].
  destruct rest as [| b' rest'].
  - reflexivity.
  - specialize (IH (S i) (ab * (1 - b)) d ltac:(discriminate)).
    change (alpha_product ab (b :: b' :: rest'))
      with (alpha_product (ab * (1 - b)) (b' :: rest')).
    rewrite <- IH. reflexivity.
Qed.

Lemma last_alphaBar_schedule bs be nt family d :
  last (map alphaBar (evaluate (betas_values (mkParams bs be nt family)))) d
  = terminal_alphaBar bs nt family be.
Proof.
  rewrite evaluate_records.
  rewrite last_alphaBar_records by apply betas_values_nonempty. reflexivity.
Qed.

Lemma terminal_alphaBar_unit bs nt family be :
  0 < bs < 1 -> 0 < be < 1 -> 0 < terminal_alphaBar bs nt family be < 1.
Proof.
  intros Hs He. unfold terminal_alphaBar.
  apply alpha_product_range; [| lra | apply betas_values_nonempty].
  now apply betas_values_unit.
Qed.

(** The terminal [alphaBar] strictly decreases as [betaEnd] grows: for
    CONST and RECIP whatever the step count, for the interpolating families
    as soon as there are two steps. *)
Lemma terminal_alphaBar_lt bs nt family be1 be2 :
  (interpolating family -> (2 <= steps nt)%Z) ->
  0 < bs < 1 -> 1e-10 <= be1 -> be1 < be2 -> be2 < 1 ->
  terminal_alphaBar bs nt family be2 < terminal_alphaBar bs nt family be1.
Proof.
  intros Hk Hs H1 Hlt H2. pose proof (steps_pos nt) as Hpos.
  unfold terminal_alphaBar.
  assert (Hint : interpolating family ->
            alpha_product 1 (betas_values (mkParams bs be2 nt family))
            < alpha_product 1 (betas_values (mkParams bs be1 nt family))).
  { intros Hi. rewrite !betas_values_interp by assumption.
    apply interp_product_lt; try assumption; try (apply Hk, Hi).
    - apply family_pre_le.
    - apply family_pre_lt.
    - apply family_post_lt.
    - apply family_post_pre_unit. }
  assert (Hn : exists m, Z.to_nat (steps nt) = S m)
    by (exists (Z.to_nat (steps nt) - 1)%nat; lia).
  destruct Hn as [m Hm].
  destruct family; try (apply Hint; split; discriminate).
  - rewrite !const_betas_values.
    rewrite !(alpha_product_map (fun _ => _)).
    apply fold_product_strict; try lra.
    + intros i _ _. lra.
    + exists 0%nat. split; [lia |]. split; [lia | lra].
  - rewrite !recip_betas_values.
    rewrite !(alpha_product_map
                (fun i => _ * (1 / (IZR (steps nt) - INR i)))).
    apply fold_product_strict; try lra.
    + intros i _ Hi.
      pose proof (recip_factor_range (steps nt) i ltac:(lia)) as Hf.
      split; nra.
    + exists 0%nat. split; [lia |]. split; [lia |].
      pose proof (recip_factor_range (steps nt) 0 ltac:(lia)) as Hf.
      nra.
Qed.

Lemma terminal_of_alphaBar bs nt family be :
  terminal_of bs nt family be
  = decibels (snr_of (terminal_alphaBar bs nt family be)).
Proof. reflexivity. Qed.

Lemma terminal_of_le bs nt family be1 be2 :
  (interpolating family -> (2 <= steps nt)%Z) ->
  0 < bs < 1 -> 1e-10 <= be1 -> be1 <= be2 -> be2 < 1 ->
  terminal_of bs nt family be2 <= terminal_of bs nt family be1.
Proof.
  intros Hk Hs H1 [Hlt | ->] H2; [| lra].
  rewrite !terminal_of_alphaBar. apply decibels_le. left.
  pose proof (terminal_alphaBar_lt bs nt family be1 be2 Hk Hs H1 Hlt H2).
  pose proof (terminal_alphaBar_unit bs nt family be1 Hs ltac:(lra)).
  pose proof (terminal_alphaBar_unit bs nt family be2 Hs ltac:(lra)).
  apply snr_of_lt; lra.
Qed.

Lemma terminal_of_lt bs nt family be1 be2 :
  (interpolating family -> (2 <= steps nt)%Z) ->
  0 < bs < 1 -> 1e-10 <= be1 -> be1 < be2 -> be2 < 1 ->
  -200 < terminal_of bs nt family be2 ->
  terminal_of bs nt family be2 < terminal_of bs nt family be1.
Proof.
  intros Hk Hs H1 Hlt H2 Hfloor.
  rewrite !terminal_of_alphaBar in *.
  apply decibels_above_floor in Hfloor.
  pose proof (terminal_alphaBar_lt bs nt family be1 be2 Hk Hs H1 Hlt H2).
  pose proof (terminal_alphaBar_unit bs nt family be1 Hs ltac:(lra)).
  pose proof (terminal_alphaBar_unit bs nt family be2 Hs ltac:(lra)).
  assert (Hsnr : snr_of (terminal_alphaBar bs nt family be2)
                 < snr_of (terminal_alphaBar bs nt family be1))
    by (apply snr_of_lt; lra).
  apply decibels_lt; lra.
Qed.

(** ** Betas of valid parameters *)

(** X8: In exact arithmetic, for every family, bounds taken in (0,1) give
    betas in (0,1): no step has [alpha <= 0] or [alpha >= 1]. *)
Theorem betas_in_unit_interval (bs be nt : R) (family : ScheduleType) :
  0 < bs -> bs < 1 -> 0 < be -> be < 1 ->
  (steps nt <= 4294967295)%Z ->
  exists betas : list R,
    getBetas (mkParams bs be nt family) = Return betas /\
    Forall (fun b => 0 < b < 1) betas.
Proof.
  intros Hs0 Hs1 He0 He1 Hn. eexists. split.
  - apply getBetas_ok. simpl. unfold max_array_length. lia.
  - apply betas_values_unit; lra.
Qed.

Lemma betas_in_unit_interval_witness :
  0 < 0.0001 /\ 0.0001 < 1 /\ 0 < 0.02 /\ 0.02 < 1 /\
  (steps 100 <= 4294967295)%Z /\
  exists betas : list R,
    getBetas (mkParams 0.0001 0.02 100 LOG) = Return betas /\
    Forall (fun b => 0 < b < 1) betas.
Proof.
  assert (H1 : 0 < 0.0001) by lra.
  assert (H2 : 0.0001 < 1) by lra.
  assert (H3 : 0 < 0.02) by lra.
  assert (H4 : 0.02 < 1) by lra.
  assert (H5 : (steps 100 <= 4294967295)%Z) by (rewrite steps_IZR; lia).
  repeat (split; [assumption |]).
  exact (betas_in_unit_interval 0.0001 0.02 100 LOG H1 H2 H3 H4 H5).
Defined.

(** X9: In exact arithmetic, the interpolating families never leave the
    interval of their two bounds (for LOG, the bounds floored at [1e-10]):
    no beta undershoots the smaller one or overshoots the larger one. *)
Theorem interpolated_betas_between (bs be nt : R) (family : ScheduleType) :
  interpolating family ->
  0 < bs -> bs < 1 -> 0 < be -> be < 1 ->
  (steps nt <= 4294967295)%Z ->
  exists betas : list R,
    getBetas (mkParams bs be nt family) = Return betas /\
    Forall (fun b => effective_bound family (Rmin bs be) <= b
                     /\ b <= effective_bound family (Rmax bs be)) betas.
Proof.
  intros Hi Hs0 Hs1 He0 He1 Hn. eexists. split.
  - apply getBetas_ok. simpl. unfold max_array_length. lia.
  - rewrite betas_values_interp by assumption.
    assert (Ha : 0 < Rmin bs be) by (apply Rmin_glb_lt; lra).
    assert (Hb : Rmax bs be < 1) by (apply Rmax_lub_lt; lra).
    pose proof (Rmin_l bs be). pose proof (Rmin_r bs be).
    pose proof (Rmax_l bs be). pose proof (Rmax_r bs be).
    rewrite <- !family_post_pre by lra.
    apply interp_between; try lra.
    + apply family_pre_le.
    + apply family_post_lt.
    + apply steps_pos.
Qed.

Lemma interpolating_QUAD : interpolating QUAD.
Proof. split; discriminate. Qed.

Lemma interpolated_betas_between_witness :
  interpolating QUAD /\
  0 < 0.0001 /\ 0.0001 < 1 /\ 0 < 0.02 /\ 0.02 < 1 /\
  (steps 100 <= 4294967295)%Z /\
  exists betas : list R,
    getBetas (mkParams 0.0001 0.02 100 QUAD) = Return betas /\
    Forall (fun b => effective_bound QUAD (Rmin 0.0001 0.02) <= b
                     /\ b <= effective_bound QUAD (Rmax 0.0001 0.02)) betas.
Proof.
  assert (H0 : interpolating QUAD) by apply interpolating_QUAD.
  assert (H1 : 0 < 0.0001) by lra.
  assert (H2 : 0.0001 < 1) by lra.
  assert (H3 : 0 < 0.02) by lra.
  assert (H4 : 0.02 < 1) by lra.
  assert (H5 : (steps 100 <= 4294967295)%Z) by (rewrite steps_IZR; lia).
  repeat (split; [assumption |]).
  exact (interpolated_betas_between 0.0001 0.02 100 QUAD H0 H1 H2 H3 H4 H5).
Defined.

(** X10: In exact arithmetic, with at least two steps an interpolating
    family starts at [betaStart] and ends at [betaEnd] (for LOG, at the
    bounds floored at [1e-10]); QUAD and SQRT need the bounds non-negative,
    which is assumed throughout. *)
Theorem interpolated_betas_endpoints (bs be nt : R) (family : ScheduleType) :
  interpolating family ->
  0 <= bs -> 0 <= be ->
  (2 <= steps nt)%Z -> (steps nt <= 4294967295)%Z ->
  exists betas : list R,
    getBetas (mkParams bs be nt family) = Return betas /\
    hd 0 betas = effective_bound family bs /\
    last betas 0 = effective_bound family be.
Proof.
  intros Hi Hs He Hk Hn. eexists. split.
  - apply getBetas_ok. simpl. unfold max_array_length. lia.
  - rewrite betas_values_interp by assumption.
    rewrite <- !family_post_pre by assumption.
    now apply interp_ends.
Qed.

Lemma interpolating_SQRT : interpolating SQRT.
Proof. split; discriminate. Qed.

Lemma interpolated_betas_endpoints_witness :
  interpolating SQRT /\ 0 <= 0.0001 /\ 0 <= 0.02 /\
  (2 <= steps 100)%Z /\ (steps 100 <= 4294967295)%Z /\
  exists betas : list R,
    getBetas (mkParams 0.0001 0.02 100 SQRT) = Return betas /\
    hd 0 betas = effective_bound SQRT 0.0001 /\
    last betas 0 = effective_bound SQRT 0.02.
Proof.
  assert (H0 : interpolating SQRT) by apply interpolating_SQRT.
  assert (H1 : 0 <= 0.0001) by lra.
  assert (H2 : 0 <= 0.02) by lra.
  assert (H3 : (2 <= steps 100)%Z) by (rewrite steps_IZR; lia).
  assert (H4 : (steps 100 <= 4294967295)%Z) by (rewrite steps_IZR; lia).
  repeat (split; [assumption |]).
  exact (interpolated_betas_endpoints 0.0001 0.02 100 SQRT H0 H1 H2 H3 H4).
Defined.

(** X11: In exact arithmetic, an interpolating family with
    [1e-10 <= betaStart < betaEnd < 1] gives strictly increasing betas:
    every step adds more noise than the one before. *)
Theorem interpolated_betas_increasing (bs be nt : R)
  (family : ScheduleType) :
  interpolating family ->
  1e-10 <= bs -> bs < be -> be < 1 ->
  (steps nt <= 4294967295)%Z ->
  exists betas : list R,
    getBetas (mkParams bs be nt family) = Return betas /\
    StronglySorted Rlt betas.
Proof.
  intros Hi Hs Hlt He Hn. eexists. split.
  - apply getBetas_ok. simpl. unfold max_array_length. lia.
  - rewrite betas_values_interp by assumption.
    apply interp_sorted; try assumption.
    + apply family_pre_lt.
    + apply family_post_lt.
    + apply steps_pos.
Qed.

Lemma interpolating_EXP : interpolating EXP.
Proof. split; discriminate. Qed.

Lemma interpolated_betas_increasing_witness :
  interpolating EXP /\ 1e-10 <= 0.0001 /\ 0.0001 < 0.035 /\ 0.035 < 1 /\
  (steps 100 <= 4294967295)%Z /\
  exists betas : list R,
    getBetas (mkParams 0.0001 0.035 100 EXP) = Return betas /\
    StronglySorted Rlt betas.
Proof.
  assert (H0 : interpolating EXP) by apply interpolating_EXP.
  assert (H1 : 1e-10 <= 0.0001) by lra.
  assert (H2 : 0.0001 < 0.035) by lra.
  assert (H3 : 0.035 < 1) by lra.
  assert (H4 : (steps 100 <= 4294967295)%Z) by (rewrite steps_IZR; lia).
  repeat (split; [assumption |]).
  exact (interpolated_betas_increasing 0.0001 0.035 100 EXP H0 H1 H2 H3 H4).
Defined.

(** ** Schedules of valid parameters *)

Lemma snr_of_pos x : 0 < x -> x < 1 -> 0 < snr_of x.
Proof.
  intros H0 H1. pose proof (snr_of_ge x H0 H1). lra.
Qed.

Lemma records_from_unit betas : forall i ab,
  Forall (fun b => 0 < b < 1) betas -> 0 < ab <= 1 ->
  Forall (fun r => 0 < alphaBar r < 1 /\ 0 < oneMinusAlphaBar r < 1
                   /\ 0 < snr r)
         (records_from betas i ab).
Proof.
  induction betas as [| b rest IH]; intros i ab Hb Hab; simpl;
    constructor; inversion Hb as [| ? ? Hb0 Hrest]; subst.
  - assert (Hr : 0 < ab * (1 - b) < 1) by nra.
    rewrite record_at_snr. simpl.
    split; [exact Hr |]. split; [lra |]. apply snr_of_pos; lra.
  - apply IH; [assumption | nra].
Qed.

(** X13: In exact arithmetic, for every family, bounds in (0,1) give a
    schedule in which [alphaBar] stays in (0,1) and strictly decreases with
    [t], [snr] is positive, and [snrDb] never increases with [t]. *)
Theorem schedule_decays_every_family (bs be nt : R)
  (family : ScheduleType) :
  0 < bs -> bs < 1 -> 0 < be -> be < 1 ->
  (steps nt <= 4294967295)%Z ->
  exists records : list TimestepData,
    calculateSchedule (mkParams bs be nt family) = Return records /\
    Forall (fun r => 0 < alphaBar r < 1 /\ 0 < oneMinusAlphaBar r < 1
                     /\ 0 < snr r) records /\
    StronglySorted Rgt (map alphaBar records) /\
    StronglySorted Rge (map snrDb records).
Proof.
  intros Hs0 Hs1 He0 He1 Hn. eexists. split.
  { apply calculateSchedule_ok. simpl. unfold max_array_length. lia. }
  assert (Hu : Forall (fun b => 0 < b < 1)
                 (betas_values (mkParams bs be nt family)))
    by (apply betas_values_unit; lra).
  pose proof (evaluate_decays _ Hu) as Hd.
  split; [| split].
  - rewrite evaluate_records. apply records_from_unit; [assumption | lra].
  - apply StronglySorted_map.
    eapply StronglySorted_impl; [| exact Hd].
    intros x y [Hab _]. exact Hab.
  - apply StronglySorted_map.
    eapply StronglySorted_impl; [| exact Hd].
    intros x y [_ [Hle _]]. now apply Rle_ge.
Qed.

Lemma schedule_decays_every_family_witness :
  0 < 0.0001 /\ 0.0001 < 1 /\ 0 < 0.02 /\ 0.02 < 1 /\
  (steps 100 <= 4294967295)%Z /\
  exists records : list TimestepData,
    calculateSchedule (mkParams 0.0001 0.02 100 RECIP) = Return records /\
    Forall (fun r => 0 < alphaBar r < 1 /\ 0 < oneMinusAlphaBar r < 1
                     /\ 0 < snr r) records /\
    StronglySorted Rgt (map alphaBar records) /\
    StronglySorted Rge (map snrDb records).
Proof.
  assert (H1 : 0 < 0.0001) by lra.
  assert (H2 : 0.0001 < 1) by lra.
  assert (H3 : 0 < 0.02) by lra.
  assert (H4 : 0.02 < 1) by lra.
  assert (H5 : (steps 100 <= 4294967295)%Z) by (rewrite steps_IZR; lia).
  repeat (split; [assumption |]).
  exact (schedule_decays_every_family 0.0001 0.02 100 RECIP H1 H2 H3 H4 H5).
Defined.

(** ** The solver's monotonicity assumption *)

(** X6: The assumption the solver's comment makes ("higher betaEnd leads to
    lower SNR") holds for every family: for [betaStart] in (0,1) and
    [1e-10 <= betaEnd1 < betaEnd2 < 1] the last record of the second
    schedule has a strictly smaller [alphaBar] and an [snrDb] no larger
    than the first, provided the family is CONST or RECIP or there are at
    least two steps. *)
Theorem terminal_decreases_with_betaEnd (bs be1 be2 nt : R)
  (family : ScheduleType) :
  (interpolating family -> (2 <= steps nt)%Z) ->
  (steps nt <= 4294967295)%Z ->
  0 < bs -> bs < 1 -> 1e-10 <= be1 -> be1 < be2 -> be2 < 1 ->
  exists (data1 data2 : list TimestepData) (s1 s2 : R),
    calculateSchedule (mkParams bs be1 nt family) = Return data1 /\
    calculateSchedule (mkParams bs be2 nt family) = Return data2 /\
    last (map alphaBar data2) 1 < last (map alphaBar data1) 1 /\
    final_snrDb data1 = Return s1 /\
    final_snrDb data2 = Return s2 /\
    s2 <= s1.
Proof.
  intros Hk Hn Hs0 Hs1 H1 Hlt H2.
  assert (Hmax : (steps nt <= max_array_length)%Z)
    by (unfold max_array_length; lia).
  do 4 eexists.
  split; [now apply calculateSchedule_ok |].
  split; [now apply calculateSchedule_ok |].
  split; [| split; [apply final_snrDb_schedule |
                    split; [apply final_snrDb_schedule |]]].
  - rewrite !last_alphaBar_schedule.
    apply terminal_alphaBar_lt; try assumption; lra.
  - apply terminal_of_le; try assumption; lra.
Qed.

Lemma not_interpolating_CONST (P : Prop) : interpolating CONST -> P.
Proof. intros [H _]. congruence. Qed.

Lemma terminal_decreases_with_betaEnd_witness :
  (interpolating CONST -> (2 <= steps 1)%Z) /\
  (steps 1 <= 4294967295)%Z /\
  0 < 0.0001 /\ 0.0001 < 1 /\ 1e-10 <= 0.02 /\ 0.02 < 0.5 /\ 0.5 < 1 /\
  exists (data1 data2 : list TimestepData) (s1 s2 : R),
    calculateSchedule (mkParams 0.0001 0.02 1 CONST) = Return data1 /\
    calculateSchedule (mkParams 0.0001 0.5 1 CONST) = Return data2 /\
    last (map alphaBar data2) 1 < last (map alphaBar data1) 1 /\
    final_snrDb data1 = Return s1 /\
    final_snrDb data2 = Return s2 /\
    s2 <= s1.
Proof.
  assert (H0 : interpolating CONST -> (2 <= steps 1)%Z)
    by apply not_interpolating_CONST.
  assert (H1 : (steps 1 <= 4294967295)%Z) by (rewrite steps_one; lia).
  assert (H2 : 0 < 0.0001) by lra.
  assert (H3 : 0.0001 < 1) by lra.
  assert (H4 : 1e-10 <= 0.02) by lra.
  assert (H5 : 0.02 < 0.5) by lra.
  assert (H6 : 0.5 < 1) by lra.
  repeat (split; [assumption |]).
  exact (terminal_decreases_with_betaEnd 0.0001 0.02 0.5 1 CONST
           H0 H1 H2 H3 H4 H5 H6).
Defined.

(** X7: Round trip, every family: for [betaStart] in (0,1), a [betaEnd] in
    [1e-7, 0.999] whose schedule ends above the floor [-200], and a family
    that is CONST or RECIP or has at least two steps, solving for the
    terminal [snrDb] of that schedule returns a value within [1e-6] of
    [betaEnd]. *)
Theorem solver_round_trip_every_family (bs be0 nt : R)
  (family : ScheduleType) :
  (interpolating family -> (2 <= steps nt)%Z) ->
  (steps nt <= 4294967295)%Z ->
  0 < bs -> bs < 1 -> 1e-7 <= be0 -> be0 <= 0.999 ->
  -200 < terminal_of bs nt family be0 ->
  (exists data : list TimestepData,
     calculateSchedule (mkParams bs be0 nt family) = Return data /\
     final_snrDb data = Return (terminal_of bs nt family be0)) /\
  exists high : R,
    solveBetaEndForSNR (terminal_of bs nt family be0) bs nt family
    = Return high /\
    Rabs (high - be0) < 1e-6.
Proof.
  intros Hk Hn Hs0 Hs1 Hlo Hhi Hfloor.
  assert (Hmax : (steps nt <= max_array_length)%Z)
    by (unfold max_array_length; lia).
  split.
  { eexists. split.
    - now apply calculateSchedule_ok.
    - apply final_snrDb_schedule. }
  eexists. split.
  { unfold solveBetaEndForSNR. rewrite bisect_iter by assumption.
    reflexivity. }
  assert (Hroot :
    let lh := Nat.iter 40
                (bisection_step (terminal_of bs nt family)
                   (terminal_of bs nt family be0)) (0.0000001, 0.999) in
    0.0000001 <= fst lh /\ fst lh <= be0 /\ be0 <= snd lh /\
    snd lh <= 0.999 /\ snd lh - fst lh = (0.999 - 0.0000001) / 2 ^ 40).
  { apply bisection_keeps_root.
    - intros mid Hmid Hlt.
      apply terminal_of_lt; try assumption; lra.
    - intros mid Hmid Hge Hgt.
      pose proof (terminal_of_le bs nt family be0 mid Hk ltac:(lra)
                    ltac:(lra) Hge ltac:(lra)).
      unfold Rgt in Hgt. lra.
    - lra.
    - lra. }
  cbv zeta in Hroot. destruct Hroot as [_ [Hl [Hh [_ Hw]]]].
  unfold Rabs. destruct (Rcase_abs _); lra.
Qed.

Lemma solver_round_trip_every_family_witness :
  (interpolating CONST -> (2 <= steps 1)%Z) /\
  (steps 1 <= 4294967295)%Z /\
  0 < 0.0001 /\ 0.0001 < 1 /\ 1e-7 <= 0.3 /\ 0.3 <= 0.999 /\
  -200 < terminal_of 0.0001 1 CONST 0.3 /\
  exists high : R,
    solveBetaEndForSNR (terminal_of 0.0001 1 CONST 0.3) 0.0001 1 CONST
    = Return high /\
    Rabs (high - 0.3) < 1e-6.
Proof.
  assert (H0 : interpolating CONST -> (2 <= steps 1)%Z)
    by apply not_interpolating_CONST.
  assert (H1 : (steps 1 <= 4294967295)%Z) by (rewrite steps_one; lia).
  assert (H2 : 0 < 0.0001) by lra.
  assert (H3 : 0.0001 < 1) by lra.
  assert (H4 : 1e-7 <= 0.3) by lra.
  assert (H5 : 0.3 <= 0.999) by lra.
  assert (H6 : -200 < terminal_of 0.0001 1 CONST 0.3).
  { rewrite terminal_of_alphaBar. apply decibels_unclamped.
    pose proof (terminal_alphaBar_unit 0.0001 1 CONST 0.3
                  ltac:(lra) ltac:(lra)) as Hr.
    apply Rlt_le_trans with (terminal_alphaBar 0.0001 1 CONST 0.3);
      [| apply snr_of_ge; lra].
    unfold terminal_alphaBar. rewrite const_betas_values, steps_one.
    unfold alpha_product. simpl. lra. }
  repeat (split; [assumption |]).
  exact (proj2 (solver_round_trip_every_family 0.0001 0.3 1 CONST
                  H0 H1 H2 H3 H4 H5 H6)).
Defined.

(** ** The two mixing coefficients *)

Lemma records_from_coefficients betas : forall i ab,
  Forall (fun b => 0 <= b <= 1) betas -> 0 <= ab <= 1 ->
  Forall (fun r => 0 <= alphaBar r <= 1 /\
                   sqrtAlphaBar r * sqrtAlphaBar r
                   + sqrtOneMinusAlphaBar r * sqrtOneMinusAlphaBar r = 1)
         (records_from betas i ab).
Proof.
  induction betas as [| b rest IH]; intros i ab Hb Hab; simpl;
    constructor; inversion Hb as [| ? ? Hb0 Hrest]; subst.
  - assert (Hr : 0 <= ab * (1 - b) <= 1) by nra.
    split; [exact Hr |]. simpl. unfold Math_sqrt.
    rewrite !sqrt_sqrt by lra. lra.
  - apply IH; [assumption | nra].
Qed.

(** X14: In exact arithmetic, for betas in [0,1] every record has [alphaBar]
    in [0,1], and its two square roots are the coefficients of a
    variance-preserving mix: [sqrtAlphaBar^2 + sqrtOneMinusAlphaBar^2 = 1]. *)
Theorem coefficients_preserve_variance (betas : list R) :
  Forall (fun b => 0 <= b <= 1) betas ->
  Forall (fun r => 0 <= alphaBar r <= 1 /\
                   sqrtAlphaBar r * sqrtAlphaBar r
                   + sqrtOneMinusAlphaBar r * sqrtOneMinusAlphaBar r = 1)
         (evaluate betas).
Proof.
  intros Hb. rewrite evaluate_records.
  apply records_from_coefficients; [assumption | lra].
Qed.

Lemma coefficients_preserve_variance_witness :
  Forall (fun b => 0 <= b <= 1) [0.1; 0.3] /\
  Forall (fun r => 0 <= alphaBar r <= 1 /\
                   sqrtAlphaBar r * sqrtAlphaBar r
                   + sqrtOneMinusAlphaBar r * sqrtOneMinusAlphaBar r = 1)
         (evaluate [0.1; 0.3]).
Proof.
  assert (H : Forall (fun b => 0 <= b <= 1) [0.1; 0.3])
    by (repeat constructor; lra).
  split; [exact H | exact (coefficients_preserve_variance [0.1; 0.3] H)].
Defined.

(** ** Extending a sequence *)

Lemma records_from_app l1 : forall l2 i ab,
  records_from (l1 ++ l2) i ab
  = records_from l1 i ab
    ++ records_from l2 (i + length l1) (alpha_product ab l1).
Proof.
  induction l1 as [| b rest IH]; intros l2 i ab; simpl.
  - now rewrite Nat.add_0_r.
  - rewrite IH. do 3 f_equal. lia.
Qed.

(** X15: The loop reads the betas from left to right and never looks ahead:
    the records of [l1 ++ l2] are the records of [l1] followed by what the
    loop pushes for [l2] when resumed at index [length l1] with the
    accumulator left by [l1]; so the schedule of a prefix is the prefix of
    the schedule. *)
Theorem evaluate_app (l1 l2 : list R) :
  evaluate (l1 ++ l2)
  = evaluate l1 ++ schedule_loop l2 (length l1) (alpha_product 1 l1) [] /\
  firstn (length l1) (evaluate (l1 ++ l2)) = evaluate l1.
Proof.
  assert (H : evaluate (l1 ++ l2)
              = evaluate l1
                ++ schedule_loop l2 (length l1) (alpha_product 1 l1) []).
  { rewrite !evaluate_records, schedule_loop_records, records_from_app.
    reflexivity. }
  split; [exact H |].
  rewrite H.
  replace (length l1) with (length (evaluate l1) + 0)%nat
    by (rewrite evaluate_records, records_from_length; lia).
  rewrite firstn_app_2. simpl. now rewrite app_nil_r.
Qed.

(** ** The CONST family in closed form *)

Lemma fold_left_Rmult_repeat c m : forall s,
  fold_left Rmult (repeat c m) s = s * c ^ m.
Proof.
  induction m as [| m IH]; intros s; simpl; [lra |].
  rewrite IH. ring.
Qed.

Lemma firstn_repeat_le {A : Type} (x : A) n m :
  (n <= m)%nat -> firstn n (repeat x m) = repeat x n.
Proof.
  revert m. induction n as [| n IH]; intros m H; [reflexivity |].
  destruct m as [| m]; [lia |]. simpl. f_equal. apply IH. lia.
Qed.

(** X16: CONST: every beta is [betaEnd] and, in exact arithmetic, [alphaBar]
    at step [t] is [(1 - betaEnd)^t], whatever [betaStart]. *)
Theorem const_schedule_closed_form (bs be nt : R) :
  (steps nt <= 4294967295)%Z ->
  exists records : list TimestepData,
    calculateSchedule (mkParams bs be nt CONST) = Return records /\
    map beta records = repeat be (Z.to_nat (steps nt)) /\
    map alphaBar records
    = map (fun i => (1 - be) ^ S i) (seq 0 (Z.to_nat (steps nt))).
Proof.
  intros Hn. eexists. split.
  { apply calculateSchedule_ok. simpl. unfold max_array_length. lia. }
  unfold betas_values. cbn [numTimesteps schedule betaStart betaEnd].
  rewrite evaluate_records, records_from_beta, records_from_alphaBar.
  split; [reflexivity |].
  rewrite repeat_length. apply map_ext_in. intros i Hi. apply in_seq in Hi.
  unfold cumulative_alpha.
  rewrite firstn_repeat_le by lia.
  rewrite map_repeat, fold_left_Rmult_repeat. ring.
Qed.

Lemma const_schedule_closed_form_witness :
  (steps 5 <= 4294967295)%Z /\
  exists records : list TimestepData,
    calculateSchedule (mkParams 0.7 0.05 5 CONST) = Return records /\
    map beta records = repeat 0.05 (Z.to_nat (steps 5)) /\
    map alphaBar records
    = map (fun i => (1 - 0.05) ^ S i) (seq 0 (Z.to_nat (steps 5))).
Proof.
  assert (H : (steps 5 <= 4294967295)%Z) by (rewrite steps_IZR; lia).
  split; [exact H | exact (const_schedule_closed_form 0.7 0.05 5 H)].
Defined.

(** ** What the bisection guarantees without monotonicity *)

Lemma bisection_invariant (f : R -> R) (target low0 high0 : R) :
  forall iters,
    let lh := Nat.iter iters (bisection_step f target) (low0, high0) in
    (fst lh = low0 \/ target < f (fst lh)) /\
    (snd lh = high0 \/ f (snd lh) <= target) /\
    snd lh - fst lh = (high0 - low0) / 2 ^ iters.
Proof.
  induction iters as [| k IH]; simpl.
  - split; [now left |]. split; [now left | lra].
  - simpl in IH.
    destruct (Nat.iter k (bisection_step f target) (low0, high0)) as [l h].
    simpl in IH. destruct IH as [Hl [Hh Hw]].
    assert (Hpow : 0 < 2 ^ k) by (apply pow_lt; lra).
    assert (Hhalf : (h - l) / 2 = (high0 - low0) / (2 * 2 ^ k)).
    { rewrite Hw. field. lra. }
    unfold bisection_step. cbn [fst snd].
    destruct (Rgt_dec (f ((l + h) / 2)) target) as [Hgt | Hngt];
      cbn [fst snd].
    + split; [right; exact Hgt |]. split; [exact Hh | lra].
    + split; [exact Hl |]. split; [right; lra | lra].
Qed.

(** X5: For [betaStart] in (0,1), whatever the family and the target, the
    value returned closes a bracket [(low, high]] no wider than [1e-12]
    (40 halvings of [0.999 - 1e-7]) such that the schedule of [low] ends
    above the target unless [low] is still [1e-7], and the schedule of
    [high] does not end above the target unless [high] is still [0.999]. *)
Theorem solver_final_bracket (target bs nt : R) (family : ScheduleType) :
  (steps nt <= 4294967295)%Z ->
  0 < bs < 1 ->
  (forall be : R,
     exists data : list TimestepData,
       calculateSchedule (mkParams bs be nt family) = Return data /\
       final_snrDb data = Return (terminal_of bs nt family be)) /\
  exists low high : R,
    solveBetaEndForSNR target bs nt family = Return high /\
    0 < high - low <= 1e-12 /\
    (low = 1e-7 \/ terminal_of bs nt family low > target) /\
    (high = 0.999 \/ ~ terminal_of bs nt family high > target).
Proof.
  intros Hn _.
  assert (Hmax : (steps nt <= max_array_length)%Z)
    by (unfold max_array_length; lia).
  split.
  { intros be. eexists. split.
    - now apply calculateSchedule_ok.
    - apply final_snrDb_schedule. }
  pose proof (bisection_invariant (terminal_of bs nt family) target
                0.0000001 0.999 40) as H.
  cbv zeta in H.
  destruct (Nat.iter 40 (bisection_step (terminal_of bs nt family) target)
              (0.0000001, 0.999)) as [l h] eqn:E.
  cbn [fst snd] in H. destruct H as [Hl [Hh Hw]].
  exists l, h. split.
  { unfold solveBetaEndForSNR. rewrite bisect_iter by assumption.
    now rewrite E. }
  split.
  { rewrite Hw. replace (2 ^ 40) with 1099511627776 by (simpl; lra). lra. }
  split.
  - destruct Hl as [-> | Hl]; [left; lra | right; exact Hl].
  - destruct Hh as [-> | Hh]; [now left | right; unfold Rgt; lra].
Qed.

Lemma solver_final_bracket_witness :
  (steps 100 <= 4294967295)%Z /\ 0 < 0.0001 < 1 /\
  exists low high : R,
    solveBetaEndForSNR (-20) 0.0001 100 LOG = Return high /\
    0 < high - low <= 1e-12 /\
    (low = 1e-7 \/ terminal_of 0.0001 100 LOG low > -20) /\
    (high = 0.999 \/ ~ terminal_of 0.0001 100 LOG high > -20).
Proof.
  assert (H : (steps 100 <= 4294967295)%Z) by (rewrite steps_IZR; lia).
  assert (Hb : 0 < 0.0001 < 1) by lra.
  split; [exact H |]. split; [exact Hb |].
  exact (proj2 (solver_final_bracket (-20) 0.0001 100 LOG H Hb)).
Defined.

(** ** Degenerate schedules *)

Lemma decibels_1e12 : decibels (1 / 1e-12) = 120.
Proof.
  unfold decibels, Math_max, Math_log10.
  rewrite Rmax_right by lra.
  replace (1 / 1e-12) with (10 ^ 12) by lra.
  rewrite ln_pow by lra. pose proof ln_10_pos. simpl INR. field. lra.
Qed.

Lemma records_from_zero n : forall i,
  Forall (fun r => alphaBar r = 1 /\ oneMinusAlphaBar r = 0 /\
                   snr r = 1 / 1e-12 /\ snrDb r = 120)
         (records_from (repeat 0 n) i 1).
Proof.
  induction n as [| n IH]; intros i; simpl; constructor.
  - replace (1 * (1 - 0)) with 1 by lra.
    assert (Hsnr : snr (record_at i 0 1) = 1 / 1e-12).
    { simpl. unfold or_else.
      destruct (Req_dec_T (1 - 1) 0) as [_ | Hne]; [reflexivity |].
      exfalso. apply Hne. lra. }
    split; [reflexivity |]. split; [simpl; lra |].
    split; [exact Hsnr |].
    rewrite record_at_snrDb, Hsnr. apply decibels_1e12.
  - replace (1 * (1 - 0)) with 1 by lra. apply IH.
Qed.

(** X17: CONST with [betaEnd = 0] adds no noise at all: at every step
    [alphaBar = 1], the denominator [1 - alphaBar] is exactly zero and is
    replaced by [1e-12], so [snr = 1e12] and [snrDb = 120], not a division
    by zero. *)
Theorem noiseless_schedule (bs nt : R) :
  (steps nt <= 4294967295)%Z ->
  exists records : list TimestepData,
    calculateSchedule (mkParams bs 0 nt CONST) = Return records /\
    length records = Z.to_nat (steps nt) /\
    Forall (fun r => alphaBar r = 1 /\ oneMinusAlphaBar r = 0 /\
                     snr r = 1 / 1e-12 /\ snrDb r = 120) records.
Proof.
  intros Hn. eexists. split.
  { apply calculateSchedule_ok. simpl. unfold max_array_length. lia. }
  unfold betas_values. cbn [numTimesteps schedule betaStart betaEnd].
  rewrite evaluate_records, records_from_length, repeat_length.
  split; [reflexivity | apply records_from_zero].
Qed.

Lemma noiseless_schedule_witness :
  (steps 3 <= 4294967295)%Z /\
  exists records : list TimestepData,
    calculateSchedule (mkParams 0.0001 0 3 CONST) = Return records /\
    length records = Z.to_nat (steps 3) /\
    Forall (fun r => alphaBar r = 1 /\ oneMinusAlphaBar r = 0 /\
                     snr r = 1 / 1e-12 /\ snrDb r = 120) records.
Proof.
  assert (H : (steps 3 <= 4294967295)%Z) by (rewrite steps_three; lia).
  split; [exact H | exact (noiseless_schedule 0.0001 3 H)].
Defined.

Lemma snr_of_nonpositive x : x <= 0 \/ 1 < x -> snr_of x <= 0.
Proof.
  intros [H | H]; unfold snr_of; rewrite or_else_nonzero by lra.
  - assert (Hinv : 0 < / (1 - x)) by (apply Rinv_0_lt_compat; lra).
    unfold Rdiv. nra.
  - assert (Hinv : / (1 - x) < 0) by (apply Rinv_lt_0_compat; lra).
    unfold Rdiv. nra.
Qed.

(** X18: In exact arithmetic on finite numbers (an [alphaBar] that has not
    overflowed), whatever the betas, a record whose [alphaBar] has left
    (0,1] (a beta above 1 or below 0 somewhere before it) has a
    non-positive [snr] and reports the floor, [snrDb = -200]. *)
Theorem out_of_range_alphaBar_reports_floor (betas : list R) :
  Forall (fun r => alphaBar r <= 0 \/ 1 < alphaBar r ->
                   snr r <= 0 /\ snrDb r = -200)
         (evaluate betas).
Proof.
  rewrite evaluate_records. apply records_from_Forall.
  intros i b ab H. rewrite record_at_snrDb, record_at_snr.
  simpl in H. pose proof (snr_of_nonpositive ab H) as Hs.
  split; [exact Hs |]. apply decibels_clamped. lra.
Qed.

(** ** linspace the other way round *)

Lemma rev_map_seq (f : nat -> R) n :
  rev (map f (seq 0 n)) = map (fun i => f (n - 1 - i)%nat) (seq 0 n).
Proof.
  induction n as [| n IH]; [reflexivity |].
  rewrite seq_S at 1. rewrite map_app, rev_app_distr. simpl.
  replace (n - 0 - 0)%nat with n by lia. f_equal.
  rewrite IH, <- seq_shift, map_map.
  apply map_ext_in. intros i Hi. apply in_seq in Hi.
  f_equal. lia.
Qed.

Lemma linspace_values_rev start end_ k :
  (2 <= k)%Z ->
  linspace_values end_ start k = rev (linspace_values start end_ k).
Proof.
  intros Hk. rewrite !linspace_values_at by assumption.
  rewrite rev_map_seq. apply map_ext_in. intros i Hi. apply in_seq in Hi.
  unfold linspace_at.
  assert (HI : INR (Z.to_nat k - 1 - i) = IZR k - 1 - INR i).
  { rewrite !minus_INR by lia. rewrite INR_IZR_INZ, Z2Nat.id by lia.
    simpl. lra. }
  rewrite HI. assert (Hk2 : 2 <= IZR k) by now apply IZR_le.
  field. lra.
Qed.

(** X19: In exact arithmetic, with at least two values, swapping the two
    ends reverses the sequence.  (With one value it does not: [linspace]
    then returns its first argument.) *)
Theorem linspace_swap_ends (start end_ n : R) :
  (2 <= steps n)%Z -> (steps n <= 4294967295)%Z ->
  exists l : list R,
    linspace start end_ n = Return l /\
    linspace end_ start n = Return (rev l).
Proof.
  intros Hk Hn. eexists.
  rewrite !linspace_ok by (unfold max_array_length; lia).
  split; [reflexivity |]. f_equal. now apply linspace_values_rev.
Qed.

Lemma linspace_swap_ends_witness :
  (2 <= steps 3)%Z /\ (steps 3 <= 4294967295)%Z /\
  exists l : list R,
    linspace 0 1 3 = Return l /\ linspace 1 0 3 = Return (rev l).
Proof.
  assert (H1 : (2 <= steps 3)%Z) by (rewrite steps_three; lia).
  assert (H2 : (steps 3 <= 4294967295)%Z) by (rewrite steps_three; lia).
  split; [exact H1 |]. split; [exact H2 |].
  exact (linspace_swap_ends 0 1 3 H1 H2).
Defined.

(** ** The families in their own variable *)

Lemma family_pre_post family x y v :
  0 < x -> x <= y -> y < 1 ->
  family_pre family x <= v -> v <= family_pre family y ->
  family_pre family (family_post family v) = v.
Proof.
  intros Hx Hxy Hy Hv1 Hv2. destruct family; simpl in *; try reflexivity.
  - apply sqrt_square. pose proof (sqrt_pos x). lra.
  - replace (sqrt v * (sqrt v * 1)) with (sqrt v * sqrt v) by ring.
    apply sqrt_sqrt. nra.
  - assert (Hp : 0 < Rmax 1e-10 x) by (pose proof (Rmax_l 1e-10 x); lra).
    assert (Hge : 1e-10 <= Rpower 2 v).
    { apply Rle_trans with (Rmax 1e-10 x); [apply Rmax_l |].
      rewrite <- (Math_pow_log2 (Rmax 1e-10 x)) by assumption.
      unfold Math_pow, Math_log2. apply Rle_Rpower; lra. }
    rewrite Rmax_right by assumption.
    apply Math_log2_pow.
  - apply Math_pow_log2.
    pose proof (Math_pow_2_pos x). unfold Math_pow in *. lra.
Qed.

(** X12: In exact arithmetic, seen through the family's own change of
    variable (square root for QUAD, square for SQRT, [log2] floored at
    [1e-10] for LOG, [2^x] for EXP) the betas of an interpolating family
    are the evenly spaced values [linspace] produced. *)
Theorem interpolated_betas_linear_in_pre (bs be nt : R)
  (family : ScheduleType) :
  interpolating family ->
  0 < bs -> bs < 1 -> 0 < be -> be < 1 ->
  (steps nt <= 4294967295)%Z ->
  exists betas v : list R,
    getBetas (mkParams bs be nt family) = Return betas /\
    linspace (family_pre family bs) (family_pre family be) nt = Return v /\
    map (family_pre family) betas = v.
Proof.
  intros Hi Hs0 Hs1 He0 He1 Hn.
  assert (Hmax : (steps nt <= max_array_length)%Z)
    by (unfold max_array_length; lia).
  do 2 eexists.
  split; [now apply getBetas_ok |].
  split; [now apply linspace_ok |].
  rewrite betas_values_interp by assumption.
  rewrite map_map.
  assert (Ha : 0 < Rmin bs be) by (apply Rmin_glb_lt; lra).
  assert (Hb : Rmax bs be < 1) by (apply Rmax_lub_lt; lra).
  pose proof (Rmin_l bs be). pose proof (Rmin_r bs be).
  pose proof (Rmax_l bs be). pose proof (Rmax_r bs be).
  pose proof (linspace_values_between
                (family_pre family (Rmin bs be))
                (family_pre family (Rmax bs be))
                (family_pre family bs) (family_pre family be) (steps nt)
                (steps_pos nt)
                ltac:(split; apply family_pre_le; lra)
                ltac:(split; apply family_pre_le; lra)) as Hin.
  rewrite <- (map_id (linspace_values _ _ _)) at 2.
  apply map_ext_in. intros v Hv.
  rewrite Forall_forall in Hin. specialize (Hin v Hv).
  apply (family_pre_post family (Rmin bs be) (Rmax bs be)); lra.
Qed.

Lemma interpolating_LOG : interpolating LOG.
Proof. split; discriminate. Qed.

Lemma interpolated_betas_linear_in_pre_witness :
  interpolating LOG /\
  0 < 0.0001 /\ 0.0001 < 1 /\ 0 < 0.02 /\ 0.02 < 1 /\
  (steps 100 <= 4294967295)%Z /\
  exists betas v : list R,
    getBetas (mkParams 0.0001 0.02 100 LOG) = Return betas /\
    linspace (family_pre LOG 0.0001) (family_pre LOG 0.02) 100 = Return v /\
    map (family_pre LOG) betas = v.
Proof.
  assert (H0 : interpolating LOG) by apply interpolating_LOG.
  assert (H1 : 0 < 0.0001) by lra.
  assert (H2 : 0.0001 < 1) by lra.
  assert (H3 : 0 < 0.02) by lra.
  assert (H4 : 0.02 < 1) by lra.
  assert (H5 : (steps 100 <= 4294967295)%Z) by (rewrite steps_IZR; lia).
  repeat (split; [assumption |]).
  exact (interpolated_betas_linear_in_pre 0.0001 0.02 100 LOG
           H0 H1 H2 H3 H4 H5).
Defined.

(** * The callers in App.tsx *)

(** ** Thinning a schedule for a chart *)

Lemma Zceil_quotient a c :
  (0 < c)%Z -> Zceil (IZR a / IZR c) = ceil_div a c.
Proof.
  intros Hc. unfold ceil_div. apply Zceil_eq.
  assert (Hc' : 0 < IZR c) by now apply IZR_lt.
  assert (Hq : (c * ((a + c - 1) / c) <= a + c - 1
                < c * ((a + c - 1) / c) + c)%Z).
  { pose proof (Z.mul_div_le (a + c - 1) c Hc).
    pose proof (Z.mul_succ_div_gt (a + c - 1) c Hc). lia. }
  set (q := ((a + c - 1) / c)%Z) in *.
  destruct Hq as [Hq1 Hq2]. split.
  - apply Rmult_lt_reg_r with (IZR c); [assumption |].
    unfold Rdiv. rewrite Rmult_assoc, Rinv_l, Rmult_1_r by lra.
    replace ((IZR q - 1) * IZR c) with (IZR (c * q - c))
      by (rewrite minus_IZR, mult_IZR; ring).
    apply IZR_lt. lia.
  - apply Rmult_le_reg_r with (IZR c); [assumption |].
    unfold Rdiv. rewrite Rmult_assoc, Rinv_l, Rmult_1_r by lra.
    rewrite <- mult_IZR. apply IZR_le. lia.
Qed.

(** The step of [thin], as an integer. *)
Lemma thin_step_value c len :
  (0 < c)%Z ->
  Math_max 1 (Math_ceil (INR len / IZR c))
  = IZR (Z.max 1 (ceil_div (Z.of_nat len) c)).
Proof.
  intros Hc. unfold Math_max, Math_ceil.
  rewrite INR_IZR_INZ, Zceil_quotient by assumption.
  destruct (Z.le_ge_cases 1 (ceil_div (Z.of_nat len) c)) as [H | H].
  - rewrite Z.max_r by assumption. apply Rmax_right. now apply IZR_le.
  - rewrite Z.max_l by lia. apply Rmax_left. apply IZR_le. lia.
Qed.

Lemma on_step_spec s i :
  (0 < s)%Z -> on_step (IZR s) i = (Z.of_nat i mod s =? 0)%Z.
Proof.
  intros Hs. unfold on_step. rewrite ZfloorZ.
  rewrite Z.rem_mod_nonneg by lia. reflexivity.
Qed.

Lemma ceil_div_succ s a :
  (0 < s)%Z -> (0 <= a)%Z ->
  ceil_div (a + 1) s
  = (ceil_div a s + if (a mod s =? 0)%Z then 1 else 0)%Z.
Proof.
  intros Hs Ha. unfold ceil_div.
  pose proof (Z.div_mod a s ltac:(lia)) as Hd.
  pose proof (Z.mod_pos_bound a s Hs) as Hm.
  destruct (a mod s =? 0)%Z eqn:E.
  - apply Z.eqb_eq in E.
    assert (Hq : ((a + s - 1) / s = a / s)%Z).
    { symmetry. apply Z.div_unique with (r := (s - 1)%Z); lia. }
    assert (Hq' : ((a + 1 + s - 1) / s = a / s + 1)%Z).
    { symmetry. apply Z.div_unique with (r := 0%Z); lia. }
    rewrite Hq, Hq'. lia.
  - apply Z.eqb_neq in E.
    assert (Hq : ((a + s - 1) / s = a / s + 1)%Z).
    { symmetry. apply Z.div_unique with (r := (a mod s - 1)%Z); lia. }
    assert (Hq' : ((a + 1 + s - 1) / s = a / s + 1)%Z).
    { symmetry. apply Z.div_unique with (r := (a mod s)%Z); lia. }
    rewrite Hq, Hq'. lia.
Qed.

(** The records kept from index [i] on are as many as the multiples of the
    step among the indices. *)
Lemma filter_from_length {A : Type} s (a : list A) : forall i,
  (0 < s)%Z ->
  Z.of_nat (length (filter_from (on_step (IZR s)) i a))
  = (ceil_div (Z.of_nat (i + length a)) s - ceil_div (Z.of_nat i) s)%Z.
Proof.
  induction a as [| x rest IH]; intros i Hs; simpl.
  - rewrite Nat.add_0_r. lia.
  - rewrite on_step_spec by assumption.
    pose proof (ceil_div_succ s (Z.of_nat i) Hs ltac:(lia)) as Hc.
    replace (Z.of_nat i + 1)%Z with (Z.of_nat (S i)) in Hc by lia.
    replace (i + S (length rest))%nat with (S i + length rest)%nat by lia.
    destruct (Z.of_nat i mod s =? 0)%Z; simpl length;
      specialize (IH (S i) Hs); lia.
Qed.

Lemma ceil_div_zero s : (0 < s)%Z -> ceil_div 0 s = 0%Z.
Proof.
  intros Hs. unfold ceil_div. apply Z.div_small. lia.
Qed.

Lemma ceil_div_bound a c :
  (0 < c)%Z -> (0 <= a)%Z ->
  (ceil_div a (Z.max 1 (ceil_div a c)) <= c)%Z.
Proof.
  intros Hc Ha. set (s := Z.max 1 (ceil_div a c)).
  assert (Hs : (0 < s)%Z) by (unfold s; lia).
  assert (Hle : (a <= c * s)%Z).
  { assert (Hq : (a <= c * ceil_div a c)%Z).
    { unfold ceil_div.
      pose proof (Z.mul_succ_div_gt (a + c - 1) c Hc). lia. }
    assert (ceil_div a c <= s)%Z by (unfold s; lia). nia. }
  unfold ceil_div. apply Z.lt_succ_r.
  apply Z.div_lt_upper_bound; [assumption |]. nia.
Qed.

Lemma filter_from_all {A : Type} (keep : nat -> bool) (a : list A) :
  forall i, (forall j, keep j = true) -> filter_from keep i a = a.
Proof.
  induction a as [| x rest IH]; intros i Hk; simpl; [reflexivity |].
  rewrite Hk. f_equal. now apply IH.
Qed.

Lemma thin_unfold {A : Type} c (data : list A) :
  (0 < c)%Z ->
  thin (IZR c) data
  = filter_from
      (on_step (IZR (Z.max 1 (ceil_div (Z.of_nat (length data)) c))))
      0 data.
Proof.
  intros Hc. unfold thin. now rewrite thin_step_value.
Qed.

Lemma thin_length {A : Type} c (data : list A) :
  (0 < c)%Z -> (Z.of_nat (length (thin (IZR c) data)) <= c)%Z.
Proof.
  intros Hc. rewrite thin_unfold by assumption.
  rewrite filter_from_length by lia.
  rewrite ceil_div_zero by lia. simpl Nat.add.
  pose proof (ceil_div_bound (Z.of_nat (length data)) c Hc ltac:(lia)).
  lia.
Qed.

Lemma thin_short {A : Type} c (data : list A) :
  (0 < c)%Z -> (Z.of_nat (length data) <= c)%Z -> thin (IZR c) data = data.
Proof.
  intros Hc Hlen. rewrite thin_unfold by assumption.
  assert (Hq : (ceil_div (Z.of_nat (length data)) c <= 1)%Z).
  { unfold ceil_div. apply Z.lt_succ_r.
    apply Z.div_lt_upper_bound; lia. }
  rewrite Z.max_l by lia.
  apply filter_from_all. intros j. rewrite on_step_spec by lia.
  now rewrite Z.mod_1_r.
Qed.

Lemma thin_first {A : Type} c (data : list A) :
  (0 < c)%Z -> hd_error (thin (IZR c) data) = hd_error data.
Proof.
  intros Hc. rewrite thin_unfold by assumption.
  destruct data as [| x rest]; [reflexivity |].
  cbn [filter_from]. rewrite on_step_spec by lia.
  now rewrite Z.mod_0_l by lia.
Qed.

(** X21: The comparison chart plots at most 250 points of a schedule, always
    starts with its first record, and plots every record of a schedule of
    at most 250 steps. *)
Theorem comparativeScatterPoints_cap (data : list TimestepData) :
  (length (comparativeScatterPoints data) <= 250)%nat /\
  hd_error (comparativeScatterPoints data) = hd_error data /\
  ((length data <= 250)%nat -> comparativeScatterPoints data = data).
Proof.
  unfold comparativeScatterPoints.
  pose proof (thin_length 250 data ltac:(lia)) as Hl.
  split; [lia |]. split.
  - apply (thin_first 250). lia.
  - intros Hlen. apply (thin_short 250); lia.
Qed.

(** X22: A chart card plots at most 150 points, the first record among them,
    all the records when there are at most 150, and nothing for an empty
    schedule. *)
Theorem chartPoints_cap (data : list TimestepData) :
  (length (chartPoints data) <= 150)%nat /\
  hd_error (chartPoints data) = hd_error data /\
  ((length data <= 150)%nat -> chartPoints data = data).
Proof.
  destruct data as [| d rest].
  - simpl. repeat split; lia.
  - unfold chartPoints.
    pose proof (thin_length 150 (d :: rest) ltac:(lia)) as Hl.
    split; [lia |]. split.
    + apply (thin_first 150). lia.
    + intros Hlen. apply (thin_short 150); lia.
Qed.

(** ** The record under the pointer *)

Lemma records_from_nth_error betas : forall i ab j r,
  nth_error (records_from betas i ab) j = Some r ->
  t r = (Z.of_nat (i + j) + 1)%Z.
Proof.
  induction betas as [| b rest IH]; intros i ab j r H.
  - destruct j; discriminate.
  - destruct j as [| j]; simpl in H.
    + injection H as <-. simpl. f_equal. lia.
    + apply IH in H. rewrite H. f_equal. lia.
Qed.

Lemma records_from_find_none betas : forall i ab k,
  (k <= Z.of_nat i \/ Z.of_nat (i + length betas) < k)%Z ->
  find (fun d => (t d =? k)%Z) (records_from betas i ab) = None.
Proof.
  induction betas as [| b rest IH]; intros i ab k Hk; [reflexivity |].
  simpl in *.
  assert (E : (Z.of_nat i + 1 =? k)%Z = false) by (apply Z.eqb_neq; lia).
  rewrite E. apply IH. lia.
Qed.

(** X23: On an evaluated schedule the hover finds the record of step [k], the
    one at index [k - 1], exactly when [1 <= k <= N]; outside that range
    neither the index nor the search by [t] finds anything. *)
Theorem hover_point_schedule (betas : list R) (k : Z) :
  ((1 <= k <= Z.of_nat (length betas))%Z ->
   exists point : TimestepData,
     hover_point (evaluate betas) k = Some point /\
     nth_error (evaluate betas) (Z.to_nat (k - 1)) = Some point /\
     t point = k) /\
  ((k < 1 \/ Z.of_nat (length betas) < k)%Z ->
   hover_point (evaluate betas) k = None).
Proof.
  rewrite evaluate_records. unfold hover_point. split.
  - intros [H1 H2].
    assert (Hb : (1 <=? k)%Z = true) by now apply Z.leb_le.
    rewrite Hb.
    destruct (nth_error (records_from betas 0 1) (Z.to_nat (k - 1)))
      as [point |] eqn:E.
    + exists point. split; [reflexivity |]. split; [reflexivity |].
      apply records_from_nth_error in E. rewrite E. lia.
    + apply nth_error_None in E. rewrite records_from_length in E. lia.
  - intros Hk.
    assert (Hnone : (if (1 <=? k)%Z
                     then nth_error (records_from betas 0 1)
                            (Z.to_nat (k - 1))
                     else None) = None).
    { destruct (1 <=? k)%Z eqn:Hb; [| reflexivity].
      apply Z.leb_le in Hb. apply nth_error_None.
      rewrite records_from_length. lia. }
    rewrite Hnone. apply records_from_find_none. simpl. lia.
Qed.

(** ** The precision of the beta axis *)

Lemma Rpower_10_log10 x : 0 < x -> Rpower 10 (Math_log10 x) = x.
Proof.
  intros Hx. unfold Math_log10, Rpower.
  replace (ln x / ln 10 * ln 10) with (ln x)
    by (pose proof ln_10_pos; field; lra).
  now apply exp_ln.
Qed.

(** X24: In exact arithmetic (a [Math.log10] that does not round), for a
    positive [betaStart] the axis shows at least two decimals, and enough
    of them for [betaStart] not to round to nothing:
    [10 ^ -(yPrecision - 1) <= betaStart]. *)
Theorem yPrecision_resolves_betaStart (bs : R) :
  0 < bs ->
  2 <= yPrecision bs /\
  Rpower 10 (- (yPrecision bs - 1)) <= bs.
Proof.
  intros Hbs. unfold yPrecision, Math_max, Math_abs, Math_floor.
  set (mag := IZR (Zfloor (Math_log10 bs))).
  assert (Hmag : mag <= Math_log10 bs)
    by (unfold mag; apply Zfloor_bound).
  pose proof (Rmax_l 2 (Rabs mag + 1)) as H2.
  pose proof (Rmax_r 2 (Rabs mag + 1)) as Hr.
  split; [exact H2 |].
  assert (Habs : - mag <= Rabs mag).
  { rewrite <- Rabs_Ropp. apply Rle_abs. }
  apply Rle_trans with (Rpower 10 (Math_log10 bs)).
  - apply Rle_Rpower; lra.
  - rewrite Rpower_10_log10 by assumption. lra.
Qed.

Lemma yPrecision_resolves_betaStart_witness :
  0 < 0.0001 /\
  2 <= yPrecision 0.0001 /\
  Rpower 10 (- (yPrecision 0.0001 - 1)) <= 0.0001.
Proof.
  assert (H : 0 < 0.0001) by lra.
  split; [exact H | exact (yPrecision_resolves_betaStart 0.0001 H)].
Defined.

(** * The exported text *)

Module CSVProperties.

Import String Ascii CSV.
Local Open Scope string_scope.

Lemma occurs_append c a b :
  occurs c (a ++ b) = (occurs c a || occurs c b)%bool.
Proof.
  induction a as [| c' a IH]; simpl; [reflexivity |].
  now rewrite IH, Bool.orb_assoc.
Qed.

Lemma occurs_join c sep (l : list string) :
  Ascii.eqb sep c = false ->
  Forall (fun x => occurs c x = false) l ->
  occurs c (join sep l) = false.
Proof.
  intros Hsep Hl. unfold join.
  induction Hl as [| x l Hx Hl IH]; [reflexivity |].
  destruct l as [| y l']; [exact Hx |].
  change (concat (String sep EmptyString) (x :: y :: l'))
    with (x ++ String sep EmptyString
            ++ concat (String sep EmptyString) (y :: l')).
  rewrite !occurs_append, Hx, IH. simpl. now rewrite Hsep.
Qed.

Lemma split_on_clean sep s : occurs sep s = false -> split_on sep s = [s].
Proof.
  induction s as [| c s IH]; simpl; [reflexivity |].
  intros H. apply Bool.orb_false_iff in H. destruct H as [Hc Hs].
  rewrite Hc, IH by assumption. reflexivity.
Qed.

Lemma split_on_append sep a b :
  occurs sep a = false ->
  split_on sep (a ++ String sep b) = a :: split_on sep b.
Proof.
  induction a as [| c a IH]; simpl.
  - intros _. now rewrite Ascii.eqb_refl.
  - intros H. apply Bool.orb_false_iff in H. destruct H as [Hc Ha].
    rewrite Hc, IH by assumption. reflexivity.
Qed.

(** Splitting undoes joining, when no piece holds the separator and there
    is at least one piece. *)
Lemma split_on_join sep (l : list string) :
  l <> [] ->
  Forall (fun x => occurs sep x = false) l ->
  split_on sep (join sep l) = l.
Proof.
  intros Hne Hl. unfold join.
  induction Hl as [| x l Hx Hl IH]; [congruence |].
  destruct l as [| y l'].
  - simpl. now apply split_on_clean.
  - change (concat (String sep EmptyString) (x :: y :: l'))
      with (x ++ String sep (concat (String sep EmptyString) (y :: l'))).
    rewrite split_on_append by assumption.
    f_equal. apply IH. discriminate.
Qed.

Lemma headers_clean :
  Forall (fun x => occurs comma x = false) headers /\
  Forall (fun x => occurs line_feed x = false) headers.
Proof. split; repeat constructor. Qed.

Section ExportedText.

Variable Number_toString : R -> string.

Hypothesis no_comma : forall x, occurs comma (Number_toString x) = false.
Hypothesis no_line_feed :
  forall x, occurs line_feed (Number_toString x) = false.

Lemma row_text_clean c (d : TimestepData) :
  (forall x, occurs c (Number_toString x) = false) ->
  Forall (fun x => occurs c x = false) (map Number_toString (row d)).
Proof.
  intros H. rewrite Forall_map. apply Forall_forall. intros x _. apply H.
Qed.

Lemma lines_clean (data : list TimestepData) :
  Forall (fun x => occurs line_feed x = false)
    (join comma headers
       :: map (fun r => join comma (map Number_toString r)) (map row data)).
Proof.
  constructor.
  - apply occurs_join; [reflexivity | apply headers_clean].
  - rewrite map_map, Forall_map. apply Forall_forall. intros d _.
    apply occurs_join; [reflexivity |].
    now apply row_text_clean.
Qed.

Lemma csv_lines (data : list TimestepData) :
  split_on line_feed (csvContent Number_toString data)
  = join comma headers
      :: map (fun d => join comma (map Number_toString (row d))) data.
Proof.
  unfold csvContent. cbv zeta.
  rewrite split_on_join; [| discriminate | apply lines_clean].
  now rewrite map_map.
Qed.

Lemma csv_fields (data : list TimestepData) :
  map (split_on comma) (split_on line_feed (csvContent Number_toString data))
  = headers :: map (fun d => map Number_toString (row d)) data.
Proof.
  rewrite csv_lines. cbn [map].
  rewrite (split_on_join comma headers);
    [| discriminate | apply headers_clean].
  f_equal. rewrite map_map. apply map_ext. intros d.
  apply split_on_join; [discriminate |].
  now apply row_text_clean.
Qed.

End ExportedText.

(** X20: The exported text reads back: when the text of a number holds neither
    a comma nor a line feed, splitting [csvContent] at the line feeds gives
    one line for the header and one per record, in order, and splitting the
    lines at the commas gives the nine header names and, for every record,
    its nine fields in the order of the header. *)
Theorem csvContent_reads_back (Number_toString : R -> string)
  (data : list TimestepData) :
  (forall x, occurs comma (Number_toString x) = false) ->
  (forall x, occurs line_feed (Number_toString x) = false) ->
  List.length (split_on line_feed (csvContent Number_toString data))
  = S (List.length data) /\
  map (split_on comma) (split_on line_feed (csvContent Number_toString data))
  = headers :: map (fun d => map Number_toString (row d)) data.
Proof.
  intros Hc Hl. split.
  - rewrite csv_lines by assumption. simpl. now rewrite length_map.
  - now apply csv_fields.
Qed.

Lemma csvContent_reads_back_witness :
  (forall x : R, occurs comma ((fun _ => "0") x) = false) /\
  (forall x : R, occurs line_feed ((fun _ => "0") x) = false) /\
  map (split_on comma)
      (split_on line_feed (csvContent (fun _ => "0") (evaluate [0.1; 0.3])))
  = headers :: map (fun d => map (fun _ => "0") (row d))
                   (evaluate [0.1; 0.3]).
Proof.
  assert (H1 : forall x : R, occurs comma ((fun _ => "0") x) = false)
    by reflexivity.
  assert (H2 : forall x : R, occurs line_feed ((fun _ => "0") x) = false)
    by reflexivity.
  split; [exact H1 |]. split; [exact H2 |].
  exact (proj2 (csvContent_reads_back (fun _ => "0")
                  (evaluate [0.1; 0.3]) H1 H2)).
Defined.

(** With no record the file is the header line alone, without a line
    feed after it. *)
Theorem csvContent_empty (Number_toString : R -> string) :
  csvContent Number_toString []
  = "t,beta,alpha,alpha_bar,1-alpha_bar,sqrt(alpha_bar),sqrt(1-alpha_bar),SNR,SNR(dB)".
Proof. reflexivity. Qed.

End CSVProperties.
